(** * url-parser: the URL decomposer, the parameter comparator and the
      query-string state codec of [src/App.tsx], embedded in Rocq.

    The three pieces of logic of [App.tsx] are translated function by
    function.  Everything the file takes from the JavaScript platform is
    kept apart in [Module Js]: completions (normal return or a thrown
    exception), ordinary objects used as string maps with their own-key
    enumeration order, [Array.prototype.sort], [String.prototype.replace],
    [Set] and [URLSearchParams].  The WHATWG URL parser, [localeCompare],
    the analytics sink and the conversion of a string to [USVString] are
    parameters of the development. *)

From Stdlib Require Import List String Ascii ZArith NArith Lia Bool Sorted.
From Stdlib Require Import DecimalString DecimalNat Permutation.
Import ListNotations.
Local Open Scope string_scope.
Local Open Scope list_scope.

(* ================================================================== *)
(** ** The JavaScript built-ins used by [App.tsx] *)
(* ================================================================== *)

Module Js.

(** A call either returns normally or throws. *)
Inductive completion (A : Type) : Type :=
| Normal (a : A)
| Throw.
Arguments Normal {A} a.
Arguments Throw {A}.

Definition bind {A B} (c : completion A) (k : A -> completion B) : completion B :=
  match c with
  | Normal a => k a
  | Throw => Throw
  end.

(** [try { body } catch { handler }] *)
Definition try_catch {A} (body : completion A) (handler : completion A) : completion A :=
  match body with
  | Normal a => Normal a
  | Throw => handler
  end.

(** Truthiness of a [string | null] value: [null] and the empty string
    are falsy. *)
Definition truthy (v : option string) : bool :=
  match v with
  | Some (String _ _) => true
  | _ => false
  end.

(** [===] on values that are strings or [undefined] ([None]). *)
Definition strict_eq (a b : option string) : bool :=
  match a, b with
  | Some x, Some y => String.eqb x y
  | None, None => true
  | _, _ => false
  end.

(** *** Ordinary objects used as [Record<string, string>]

    An object is the list of its own properties in the order in which
    [Object.keys] enumerates them: array-index keys first, in ascending
    numeric order, then the other keys in creation order. *)
Definition JsObject := list (string * string).

Definition digit_of (c : ascii) : option N :=
  let n := N_of_ascii c in
  if (48 <=? n)%N && (n <=? 57)%N then Some (n - 48)%N else None.

Fixpoint digits_value (s : string) (acc : N) : option N :=
  match s with
  | EmptyString => Some acc
  | String c s' =>
      match digit_of c with
      | Some d => digits_value s' (10 * acc + d)%N
      | None => None
      end
  end.

(** A key is an array index when it is the canonical decimal form of an
    integer below 2^32 - 1. *)
Definition array_index (k : string) : option N :=
  match k with
  | EmptyString => None
  | String c rest =>
      if Ascii.eqb c "0" && negb (String.eqb rest "") then None
      else match digits_value k 0 with
           | Some n => if (n <? 4294967295)%N then Some n else None
           | None => None
           end
  end.

(** [comes_before k k']: a newly created key [k] is enumerated before the
    existing key [k']. *)
Definition comes_before (k k' : string) : bool :=
  match array_index k, array_index k' with
  | Some n, Some n' => (n <? n')%N
  | Some _, None => true
  | None, _ => false
  end.

Definition Object_keys (o : JsObject) : list string := map fst o.

Fixpoint hasOwnProperty (o : JsObject) (k : string) : bool :=
  match o with
  | [] => false
  | (k', _) :: o' => String.eqb k' k || hasOwnProperty o' k
  end.

(** [o[k]] read as a string: [None] stands for a value that is not a
    string ([undefined], or something inherited from [Object.prototype]). *)
Fixpoint obj_read (o : JsObject) (k : string) : option string :=
  match o with
  | [] => None
  | (k', v) :: o' => if String.eqb k' k then Some v else obj_read o' k
  end.

Fixpoint obj_update (o : JsObject) (k v : string) : JsObject :=
  match o with
  | [] => []
  | (k', v') :: o' =>
      if String.eqb k' k then (k', v) :: o' else (k', v') :: obj_update o' k v
  end.

Fixpoint obj_create (o : JsObject) (k v : string) : JsObject :=
  match o with
  | [] => [(k, v)]
  | (k', v') :: o' =>
      if comes_before k k' then (k, v) :: o else (k', v') :: obj_create o' k v
  end.

(** [o[k] = v] on an object made by an object literal.  Assigning a string
    to ["__proto__"] runs the setter inherited from [Object.prototype],
    which ignores a value that is neither an object nor [null]: no own
    property is created.  An existing own property keeps its place. *)
Definition obj_set (o : JsObject) (k v : string) : JsObject :=
  if String.eqb k "__proto__" then o
  else if hasOwnProperty o k then obj_update o k v
  else obj_create o k v.

(** *** [Array.prototype.sort] with a comparator

    The sort is stable; for a consistent comparator every stable sort
    gives the same array, here computed by insertion. *)
Section Sort.
Context {A : Type} (cmp : A -> A -> Z).

Fixpoint sort_insert (x : A) (l : list A) : list A :=
  match l with
  | [] => [x]
  | y :: l' => if (0 <? cmp x y)%Z then y :: sort_insert x l' else x :: l
  end.

Definition Array_sort (l : list A) : list A :=
  fold_right sort_insert [] l.
End Sort.

(** *** [String.prototype.replace] with a string pattern: the first
    occurrence only. *)
Fixpoint String_replace (pat rep s : string) : string :=
  if String.prefix pat s
  then rep ++ String.substring (String.length pat)
                               (String.length s - String.length pat) s
  else match s with
       | EmptyString => EmptyString
       | String c s' => String c (String_replace pat rep s')
       end.

(** Number to string inside a template literal, for a non-negative
    integer. *)
Definition Number_toString (n : nat) : string :=
  NilEmpty.string_of_uint (Nat.to_uint n).

(** *** [Set<string>]: insertion-ordered, no duplicates. *)
Definition JsSet := list string.

Definition Set_has (s : JsSet) (k : string) : bool :=
  existsb (String.eqb k) s.

Definition Set_add (s : JsSet) (k : string) : JsSet :=
  if Set_has s k then s else s ++ [k].

(** *** [URLSearchParams]: a list of name-value pairs. *)
Definition URLSearchParams := list (string * string).

Fixpoint usp_get (p : URLSearchParams) (name : string) : option string :=
  match p with
  | [] => None
  | (n, v) :: p' => if String.eqb n name then Some v else usp_get p' name
  end.

(** [set]: the first pair of that name takes the value and the others are
    removed; without such a pair one is appended. *)
Fixpoint usp_set (p : URLSearchParams) (name value : string) : URLSearchParams :=
  match p with
  | [] => [(name, value)]
  | (n, v) :: p' =>
      if String.eqb n name
      then (n, value) :: filter (fun e => negb (String.eqb (fst e) name)) p'
      else (n, v) :: usp_set p' name value
  end.

(** [params.set(name, value)] as the page calls it.  Both arguments are
    declared [USVString]: the call first converts them, replacing every
    unpaired surrogate by U+FFFD and leaving every other string as it is,
    and then works on the list as [usp_set] does. *)
Definition usp_set_converted (USVString : string -> string)
           (p : URLSearchParams) (name value : string) : URLSearchParams :=
  usp_set p (USVString name) (USVString value).

(** *** [Array.prototype.map] and [filter] with a callback that also takes
    the index. *)
Definition Array_mapi {A B : Type} (f : A -> nat -> B) (l : list A) : list B :=
  map (fun ix => f (snd ix) (fst ix)) (combine (seq 0 (List.length l)) l).

Definition Array_filteri {A : Type} (f : A -> nat -> bool) (l : list A) : list A :=
  map snd (filter (fun ix => f (snd ix) (fst ix)) (combine (seq 0 (List.length l)) l)).

(** *** What [new URL(s)] exposes to [App.tsx]. *)
Record URLObject := {
  protocol : string;
  host : string;
  pathname : string;
  searchParams : URLSearchParams
}.

End Js.

Import Js(completion, Normal, Throw, JsObject, JsSet, URLSearchParams).

(* ================================================================== *)
(** ** [src/App.tsx] *)
(* ================================================================== *)

Record ParsedURL := {
  protocol : string;
  host : string;
  path : string;
  params : JsObject
}.

Section Decomposer.
(** [new URL(url)]: the parsed URL, or a thrown [TypeError]. *)
Variable URL : string -> completion Js.URLObject.
(** [a.localeCompare(b)]: negative, zero or positive. *)
Variable localeCompare : string -> string -> Z.
(** The analytics instance of [main.tsx] and firebase's [logEvent], called
    with the event name and the [url] field of its payload. *)
Variable Analytics : Type.
Variable logEvent : Analytics -> string -> string -> completion unit.

(** The comparator of line 26: [([a], [b]) => a.localeCompare(b)]. *)
Definition entry_compare (x y : string * string) : Z :=
  localeCompare (fst x) (fst y).

(** Lines 24-27: the sorted entries are assigned into a fresh object. *)
Definition build_params (entries : list (string * string)) : JsObject :=
  fold_left (fun params e => Js.obj_set params (fst e) (snd e))
            (Js.Array_sort entry_compare entries) [].

Definition parseUrl_body (analytics : option Analytics) (url : string)
  : completion (option ParsedURL) :=
  Js.bind (match analytics with
           | Some a => logEvent a "parse_url" url
           | None => Normal tt
           end) (fun _ =>
  Js.bind (URL url) (fun u =>
  let params := build_params (Js.searchParams u) in
  Normal (Some {| protocol := Js.String_replace ":" "" (Js.protocol u);
                  host := Js.host u;
                  path := Js.pathname u;
                  params := params |}))).

(** Lines 16-37.  [None] is [null]. *)
Definition parseUrl (analytics : option Analytics) (url : string)
  : completion (option ParsedURL) :=
  Js.try_catch (parseUrl_body analytics url) (Normal None).
(** Lines 238-248: the parse is tried, a throw gives [false]; otherwise the
    protocol decides. *)
Definition isValidUrl (s : string) : bool :=
  match URL s with
  | Throw => false
  | Normal u =>
      String.eqb (Js.protocol u) "http:" || String.eqb (Js.protocol u) "https:"
  end.
End Decomposer.

(** Lines 39-44. *)
Definition paramsEqual (a b : JsObject) : bool :=
  let aKeys := Js.Object_keys a in
  let bKeys := Js.Object_keys b in
  if negb (List.length aKeys =? List.length bKeys)%nat then false
  else forallb (fun k => Js.strict_eq (Js.obj_read b k) (Js.obj_read a k)) aKeys.

(** *** Parameter comparator (lines 181-225)

    [allParams] is the list of the [params] of the successfully parsed
    URLs. *)
Definition allParams_of (parsed : list (option ParsedURL)) : list JsObject :=
  flat_map (fun p => match p with Some q => [params q] | None => [] end) parsed.

Definition canCompare (allParams : list JsObject) : bool :=
  (1 <? List.length allParams)%nat.

(** [allParams.every((p) => paramsEqual(p, allParams[0]))]; on the empty
    array [every] holds without reading [allParams[0]]. *)
Definition allSame (allParams : list JsObject) : bool :=
  canCompare allParams &&
  match allParams with
  | [] => true
  | first :: _ => forallb (fun p => paramsEqual p first) allParams
  end.

Record Differences := {
  missing : JsSet;
  valueChanged : JsSet
}.

(** Lines 195-198. *)
Definition collect_keys (allParams : list JsObject) : JsSet :=
  fold_left (fun allKeys params => fold_left Js.Set_add (Js.Object_keys params) allKeys)
            allParams [].

(** Line 205. *)
Definition keyExistsInAll (allParams : list JsObject) (key : string) : bool :=
  forallb (fun params => Js.hasOwnProperty params key) allParams.

(** Lines 214-216. *)
Definition hasValueDiff (allParams : list JsObject) (key : string) : bool :=
  let values := map (fun params => Js.obj_read params key) allParams in
  (1 <? List.length values)%nat &&
  negb (match values with
        | [] => true
        | v0 :: _ => forallb (fun v => Js.strict_eq v v0) values
        end).

(** The body of [allKeys.forEach], lines 203-222. *)
Definition classify (allParams : list JsObject) (acc : Differences) (key : string)
  : Differences :=
  if negb (keyExistsInAll allParams key)
  then {| missing := Js.Set_add (missing acc) key; valueChanged := valueChanged acc |}
  else if hasValueDiff allParams key
       then {| missing := missing acc; valueChanged := Js.Set_add (valueChanged acc) key |}
       else acc.

Definition getDifferentParamKeys (allParams : list JsObject) : Differences :=
  if negb (canCompare allParams) || allSame allParams
  then {| missing := []; valueChanged := [] |}
  else fold_left (classify allParams) (collect_keys allParams)
                 {| missing := []; valueChanged := [] |}.

(** *** State codec (lines 46-64, 99-120, 294-304) *)

Record UrlSlot := {
  url : string;
  note : string
}.

(** [[...].filter(Boolean) as string[]] *)
Definition filter_Boolean (l : list (option string)) : list string :=
  flat_map (fun v => match v with
                     | Some s => if Js.truthy v then [s] else []
                     | None => []
                     end) l.

(** Lines 46-54, on the parameters read from [window.location.search]. *)
Definition getInitialUrls (search : URLSearchParams) : list string :=
  let urls := filter_Boolean [Js.usp_get search "url1";
                              Js.usp_get search "url2";
                              Js.usp_get search "url3"] in
  if (0 <? List.length urls)%nat then urls else [""].

(** Lines 56-64. *)
Definition getInitialNotes (search : URLSearchParams) : list string :=
  filter_Boolean [Js.usp_get search "note1";
                  Js.usp_get search "note2";
                  Js.usp_get search "note3"].

(** Lines 100-108: the notes are padded or cut to the number of urls. *)
Definition syncNotes (prev : list string) (urls_length : nat) : list string :=
  if (List.length prev =? urls_length)%nat then prev
  else if (List.length prev <? urls_length)%nat
       then prev ++ repeat "" (urls_length - List.length prev)
       else firstn urls_length prev.

(** One step of [urls.forEach((url, i) => ...)], lines 113-117, for a url
    and a note that the conversion of [set] leaves as they are (strings
    without unpaired surrogates); [sync_step_written] below is the step
    for any strings. *)
Definition sync_step (notes : list string) (p : URLSearchParams) (iu : nat * string)
  : URLSearchParams :=
  let '(i, u) := iu in
  let p1 := if Js.truthy (Some u)
            then Js.usp_set p ("url" ++ Js.Number_toString (i + 1)) u else p in
  let n := nth_error notes i in
  if Js.truthy n
  then Js.usp_set p1 ("note" ++ Js.Number_toString (i + 1))
                  (match n with Some s => s | None => "" end)
  else p1.

(** Lines 111-117: the parameters written back to the address bar. *)
Definition syncQuery (urls notes : list string) : URLSearchParams :=
  fold_left (sync_step notes) (combine (seq 0 (List.length urls)) urls) [].

(** Lines 113-117 with the conversion that [params.set] applies to its
    arguments: the tests look at the strings of the state, the list
    receives their conversions. *)
Definition sync_step_written (USVString : string -> string)
           (notes : list string) (p : URLSearchParams) (iu : nat * string)
  : URLSearchParams :=
  let '(i, u) := iu in
  let p1 := if Js.truthy (Some u)
            then Js.usp_set_converted USVString p
                   ("url" ++ Js.Number_toString (i + 1)) u
            else p in
  let n := nth_error notes i in
  if Js.truthy n
  then Js.usp_set_converted USVString p1
         ("note" ++ Js.Number_toString (i + 1))
         (match n with Some s => s | None => "" end)
  else p1.

(** Lines 111-117 for any strings. *)
Definition syncQuery_written (USVString : string -> string)
           (urls notes : list string) : URLSearchParams :=
  fold_left (sync_step_written USVString notes)
            (combine (seq 0 (List.length urls)) urls) [].

(** The rows shown for a state, lines 294-304: row [i] carries [urls[i]]
    and [notes[i] || ""]. *)
Definition rows (urls notes : list string) : list UrlSlot :=
  map (fun iu => {| url := snd iu; note := nth (fst iu) notes "" |})
      (combine (seq 0 (List.length urls)) urls).

(** The codec on slots.  [encode] is the parameter list that the sync effect
    writes for the state of the slots; [decode] is the list of rows of the
    state read at start-up.  The address bar in between is taken to carry
    the list of pairs unchanged: it is written by [params.toString()] and
    read back by [new URLSearchParams(window.location.search)]. *)
Definition encode (slots : list UrlSlot) : URLSearchParams :=
  syncQuery (map url slots) (map note slots).

(** [encode] for any strings, with the conversion of [params.set]. *)
Definition encode_written (USVString : string -> string) (slots : list UrlSlot)
  : URLSearchParams :=
  syncQuery_written USVString (map url slots) (map note slots).

Definition decode (search : URLSearchParams) : list UrlSlot :=
  let urls := getInitialUrls search in
  rows urls (syncNotes (getInitialNotes search) (List.length urls)).

(** *** The editing state (lines 80-84, 99-108, 140-160)

    The two state arrays of [App], and the event handlers as functions on
    that state; each handler reads [urls.length] and updates the arrays in
    the same event. *)
Record AppState := {
  urls : list string;
  notes : list string
}.

(** Lines 100-108 as an effect on the state. *)
Definition syncNotesEffect (st : AppState) : AppState :=
  {| urls := urls st; notes := syncNotes (notes st) (List.length (urls st)) |}.

(** Lines 80 and 84, followed by the effect of lines 100-108. *)
Definition initialState (search : URLSearchParams) : AppState :=
  syncNotesEffect {| urls := getInitialUrls search; notes := getInitialNotes search |}.

(** Lines 140-142. *)
Definition handleChange (idx : nat) (value : string) (st : AppState) : AppState :=
  {| urls := Js.Array_mapi (fun u i => if (i =? idx)%nat then value else u) (urls st);
     notes := notes st |}.

(** Lines 144-146. *)
Definition handleNoteChange (idx : nat) (value : string) (st : AppState) : AppState :=
  {| urls := urls st;
     notes := Js.Array_mapi (fun n i => if (i =? idx)%nat then value else n) (notes st) |}.

(** Lines 148-153. *)
Definition handleAdd (st : AppState) : AppState :=
  if (List.length (urls st) <? 3)%nat
  then {| urls := urls st ++ [""]; notes := notes st ++ [""] |}
  else st.

(** Lines 155-160. *)
Definition handleRemove (idx : nat) (st : AppState) : AppState :=
  if (1 <? List.length (urls st))%nat
  then {| urls := Js.Array_filteri (fun _ i => negb (i =? idx)%nat) (urls st);
          notes := Js.Array_filteri (fun _ i => negb (i =? idx)%nat) (notes st) |}
  else st.

(** The user events and their handlers. *)
Inductive Event :=
| Change (idx : nat) (value : string)
| NoteChange (idx : nat) (value : string)
| Add
| Remove (idx : nat).

Definition handler (e : Event) (st : AppState) : AppState :=
  match e with
  | Change idx value => handleChange idx value st
  | NoteChange idx value => handleNoteChange idx value st
  | Add => handleAdd st
  | Remove idx => handleRemove idx st
  end.

(** A step: the handler, and then the effect of lines 100-108, which React
    runs only when its dependency [urls.length] has changed. *)
Definition handle (e : Event) (st : AppState) : AppState :=
  let st' := handler e st in
  if (List.length (urls st') =? List.length (urls st))%nat
  then st'
  else syncNotesEffect st'.

Definition run (events : list Event) (st : AppState) : AppState :=
  fold_left (fun s e => handle e s) events st.

(** The rows and the address-bar parameters of a state. *)
Definition state_rows (st : AppState) : list UrlSlot := rows (urls st) (notes st).

Definition state_query (st : AppState) : URLSearchParams :=
  syncQuery (urls st) (notes st).

(* ================================================================== *)
(** ** A reference platform for concrete runs

    The answers of [new URL] on the handful of address strings used in the
    examples below (any other string is answered with a throw, which is
    what the parser does on ["not a url"]), the code-unit order as
    comparison, and an analytics sink that either records or throws. *)
(* ================================================================== *)

Definition example_origin (query : URLSearchParams) : Js.URLObject :=
  {| Js.protocol := "https:"; Js.host := "example.com"; Js.pathname := "/";
     Js.searchParams := query |}.

Definition refURL (s : string) : completion Js.URLObject :=
  if String.eqb s "https://example.com?b=2&a=1"
  then Normal (example_origin [("b", "2"); ("a", "1")])
  else if String.eqb s "https://example.com?k=1&a=0&k=2"
  then Normal (example_origin [("k", "1"); ("a", "0"); ("k", "2")])
  else if String.eqb s "https://example.com?9=a&10=b"
  then Normal (example_origin [("9", "a"); ("10", "b")])
  else if String.eqb s "https://example.com?__proto__=1&__proto__=2"
  then Normal (example_origin [("__proto__", "1"); ("__proto__", "2")])
  else Throw.

Definition refCompare (a b : string) : Z :=
  match String.compare a b with
  | Lt => (-1)%Z
  | Eq => 0%Z
  | Gt => 1%Z
  end.

(** The same platform, knowing one more address: the example with its two
    parameters in the other order. *)
Definition refURL_more (s : string) : completion Js.URLObject :=
  if String.eqb s "https://example.com?a=1&b=2"
  then Normal (example_origin [("a", "1"); ("b", "2")])
  else refURL s.

(** A conversion to [USVString] for concrete runs, on strings given by
    their bytes in (generalised) UTF-8: there an unpaired surrogate is a
    three-byte sequence [ED A0..BF xx], and it is replaced by the bytes
    [EF BF BD] of U+FFFD. *)
Fixpoint refUSVString (s : string) : string :=
  match s with
  | EmptyString => EmptyString
  | String c1 t =>
      match t with
      | String c2 (String _ rest) =>
          if (N_of_ascii c1 =? 237)%N && (160 <=? N_of_ascii c2)%N
             && (N_of_ascii c2 <=? 191)%N
          then String (ascii_of_N 239)
                 (String (ascii_of_N 191) (String (ascii_of_N 189) (refUSVString rest)))
          else String c1 (refUSVString t)
      | _ => String c1 (refUSVString t)
      end
  end.

(** The url made of the single code unit U+D800, an unpaired surrogate. *)
Definition lone_surrogate : string :=
  String (ascii_of_N 237) (String (ascii_of_N 160) (String (ascii_of_N 128) "")).

(** [true] is a sink whose call returns, [false] one whose call throws. *)
Definition refLogEvent (sink : bool) (event payload_url : string) : completion unit :=
  if sink then Normal tt else Throw.

(* ================================================================== *)
(** ** Vocabulary of the statements *)
(* ================================================================== *)

(** An object has each own key once. *)
Definition wf_obj (o : JsObject) : Prop := NoDup (Js.Object_keys o).

(** The value of the last entry named [k] in a list of query entries. *)
Definition last_value (entries : list (string * string)) (k : string) : option string :=
  fold_left (fun acc e => if String.eqb (fst e) k then Some (snd e) else acc)
            entries None.

(** Keys in ascending order of a comparison function. *)
Definition ascending (cmp : string -> string -> Z) (keys : list string) : Prop :=
  StronglySorted (fun a b => (cmp a b <= 0)%Z) keys.

Definition nonEmpty (s : string) : bool := Js.truthy (Some s).

(** The non-empty url values of a slot list, in order, and likewise the
    notes. *)
Definition url_values (slots : list UrlSlot) : list string :=
  filter nonEmpty (map url slots).

Definition note_values (slots : list UrlSlot) : list string :=
  filter nonEmpty (map note slots).

(** Two parameter maps have the same key set; they agree on every key
    they share. *)
Definition same_key_set (p q : JsObject) : Prop :=
  forall k, In k (Js.Object_keys p) <-> In k (Js.Object_keys q).

Definition same_values (p q : JsObject) : Prop :=
  forall k v w, Js.obj_read p k = Some v -> Js.obj_read q k = Some w -> v = w.

(** The check of [paramsEqual p first], spelled out: equal cardinality, and
    every key of [p] reads the same string in [first]. *)
Definition matches_reference (first p : JsObject) : Prop :=
  List.length (Js.Object_keys p) = List.length (Js.Object_keys first) /\
  forall k, In k (Js.Object_keys p) -> Js.obj_read first k = Js.obj_read p k.

(** The first map of a sequence, the reference of [allSame]. *)
Definition reference (allParams : list JsObject) : JsObject :=
  match allParams with
  | [] => []
  | first :: _ => first
  end.

(** A slot with a non-empty url, and the slots of a list that have one. *)
Definition has_url (s : UrlSlot) : bool := nonEmpty (url s).

Definition url_bearing (slots : list UrlSlot) : list UrlSlot :=
  filter has_url slots.

(** Every slot with a non-empty note has a non-empty url. *)
Definition notes_have_urls (slots : list UrlSlot) : Prop :=
  forall s, In s slots -> nonEmpty (note s) = true -> nonEmpty (url s) = true.

(** No slot with a url and an empty note stands before a slot with a
    non-empty note. *)
Definition noted_slots_first (slots : list UrlSlot) : Prop :=
  forall l1 s l2, slots = l1 ++ s :: l2 ->
    nonEmpty (url s) = true -> nonEmpty (note s) = false ->
    forall t, In t l2 -> nonEmpty (note t) = false.

(** What [decode] is to give back for a slot list: its url-bearing slots,
    or the single empty slot when there is none. *)
Definition expected_slots (slots : list UrlSlot) : list UrlSlot :=
  match url_bearing slots with
  | [] => [{| url := ""; note := "" |}]
  | _ :: _ => url_bearing slots
  end.

(** The strings of a slot list are left as they are by the conversion: they
    have no unpaired surrogate. *)
Definition well_formed_slots (USVString : string -> string)
           (slots : list UrlSlot) : Prop :=
  forall s, In s slots -> USVString (url s) = url s /\ USVString (note s) = note s.

(** The parameter names are left as they are by the conversion. *)
Definition keys_converted_unchanged (USVString : string -> string) : Prop :=
  forall n : nat,
    USVString ("url" ++ Js.Number_toString n)%string
    = ("url" ++ Js.Number_toString n)%string /\
    USVString ("note" ++ Js.Number_toString n)%string
    = ("note" ++ Js.Number_toString n)%string.

(** The conversion keeps the length of a string, so it gives the empty
    string on the empty string only. *)
Definition conversion_keeps_empty (USVString : string -> string) : Prop :=
  USVString "" = "" /\ forall c s, USVString (String c s) <> "".

(** The names under which row [i] (counted from 0) is written to the
    address bar. *)
Definition url_key (i : nat) : string := "url" ++ Js.Number_toString (i + 1).

Definition note_key (i : nat) : string := "note" ++ Js.Number_toString (i + 1).

(** The size invariant of the editing state: one to three urls, and as many
    notes as urls. *)
Definition well_sized (st : AppState) : Prop :=
  1 <= List.length (urls st) <= 3 /\
  List.length (notes st) = List.length (urls st).

(** A list with its element at index [idx] taken out. *)
Definition without {A : Type} (idx : nat) (l : list A) : list A :=
  firstn idx l ++ skipn (S idx) l.

(* ================================================================== *)
(** ** Facts about the built-ins *)
(* ================================================================== *)

Lemma hasOwnProperty_In (o : JsObject) (k : string) :
  Js.hasOwnProperty o k = true <-> In k (Js.Object_keys o).
Proof.
  induction o as [|[k' v] o IH]; simpl.
  - split; [discriminate | tauto].
  - rewrite orb_true_iff, IH, String.eqb_eq. tauto.
Qed.

Lemma obj_read_None (o : JsObject) (k : string) :
  Js.obj_read o k = None <-> Js.hasOwnProperty o k = false.
Proof.
  induction o as [|[k' v] o IH]; simpl.
  - tauto.
  - destruct (String.eqb k' k); simpl; [split; discriminate | exact IH].
Qed.

Lemma strict_eq_true (a b : option string) :
  Js.strict_eq a b = true <-> a = b.
Proof.
  destruct a as [x|], b as [y|]; simpl; try (split; congruence).
  rewrite String.eqb_eq. split; congruence.
Qed.

Lemma obj_update_keys (o : JsObject) (k v : string) :
  Js.Object_keys (Js.obj_update o k v) = Js.Object_keys o.
Proof.
  induction o as [|[k' v'] o IH]; simpl; [reflexivity|].
  destruct (String.eqb k' k); simpl; [reflexivity | now f_equal].
Qed.

Lemma obj_update_read_same (o : JsObject) (k v : string) :
  Js.hasOwnProperty o k = true -> Js.obj_read (Js.obj_update o k v) k = Some v.
Proof.
  induction o as [|[k' v'] o IH]; simpl; [discriminate|].
  destruct (String.eqb k' k) eqn:E; simpl; rewrite E; auto.
Qed.

Lemma obj_update_read_other (o : JsObject) (k v k2 : string) :
  k <> k2 -> Js.obj_read (Js.obj_update o k v) k2 = Js.obj_read o k2.
Proof.
  intros Hne. induction o as [|[k' v'] o IH]; simpl; [reflexivity|].
  destruct (String.eqb k' k) eqn:E; simpl.
  - apply String.eqb_eq in E. subst k'.
    apply String.eqb_neq in Hne. now rewrite Hne.
  - now rewrite IH.
Qed.

Lemma obj_create_read_same (o : JsObject) (k v : string) :
  Js.hasOwnProperty o k = false -> Js.obj_read (Js.obj_create o k v) k = Some v.
Proof.
  induction o as [|[k' v'] o IH]; simpl.
  - now rewrite String.eqb_refl.
  - intros H. apply orb_false_iff in H. destruct H as [E H].
    destruct (Js.comes_before k k'); simpl.
    + now rewrite String.eqb_refl.
    + rewrite E. auto.
Qed.

Lemma obj_create_read_other (o : JsObject) (k v k2 : string) :
  k <> k2 -> Js.obj_read (Js.obj_create o k v) k2 = Js.obj_read o k2.
Proof.
  intros Hne. apply String.eqb_neq in Hne.
  induction o as [|[k' v'] o IH]; simpl.
  - now rewrite Hne.
  - destruct (Js.comes_before k k'); simpl.
    + now rewrite Hne.
    + now rewrite IH.
Qed.

(** Reading after an assignment. *)
Lemma obj_set_read (o : JsObject) (k v k2 : string) :
  k <> "__proto__" ->
  Js.obj_read (Js.obj_set o k v) k2 =
  if String.eqb k k2 then Some v else Js.obj_read o k2.
Proof.
  intros Hp. unfold Js.obj_set.
  apply String.eqb_neq in Hp. rewrite Hp.
  destruct (String.eqb k k2) eqn:E.
  - apply String.eqb_eq in E. subst k2.
    destruct (Js.hasOwnProperty o k) eqn:Hh.
    + now apply obj_update_read_same.
    + now apply obj_create_read_same.
  - apply String.eqb_neq in E.
    destruct (Js.hasOwnProperty o k).
    + now apply obj_update_read_other.
    + now apply obj_create_read_other.
Qed.

Lemma obj_set_proto (o : JsObject) (v : string) :
  Js.obj_set o "__proto__" v = o.
Proof. reflexivity. Qed.

Lemma obj_create_keys_In (o : JsObject) (k v x : string) :
  In x (Js.Object_keys (Js.obj_create o k v)) <-> x = k \/ In x (Js.Object_keys o).
Proof.
  induction o as [|[k' v'] o IH]; simpl.
  - intuition.
  - destruct (Js.comes_before k k'); simpl.
    + intuition.
    + rewrite IH. intuition.
Qed.

Lemma obj_create_wf (o : JsObject) (k v : string) :
  Js.hasOwnProperty o k = false -> wf_obj o -> wf_obj (Js.obj_create o k v).
Proof.
  unfold wf_obj.
  induction o as [|[k' v'] o IH]; simpl; intros Hh Hwf.
  - constructor; [intros [] | constructor].
  - apply orb_false_iff in Hh. destruct Hh as [E Hh].
    apply String.eqb_neq in E.
    destruct (Js.comes_before k k'); simpl.
    + constructor; [|exact Hwf].
      simpl. intros [H|H]; [congruence|].
      apply hasOwnProperty_In in H. congruence.
    + inversion Hwf as [|? ? Hnin Hnd]; subst.
      constructor; [|now apply IH].
      intros H. apply obj_create_keys_In in H. destruct H as [H|H]; [congruence|tauto].
Qed.

(** Assignment keeps the own keys distinct. *)
Lemma obj_set_wf (o : JsObject) (k v : string) :
  wf_obj o -> wf_obj (Js.obj_set o k v).
Proof.
  intros Hwf. unfold Js.obj_set.
  destruct (String.eqb k "__proto__"); [exact Hwf|].
  destruct (Js.hasOwnProperty o k) eqn:Hh.
  - unfold wf_obj. now rewrite obj_update_keys.
  - now apply obj_create_wf.
Qed.

Lemma obj_set_read_any (o : JsObject) (k v k2 : string) :
  k2 <> "__proto__" ->
  Js.obj_read (Js.obj_set o k v) k2 =
  if String.eqb k k2 then Some v else Js.obj_read o k2.
Proof.
  intros Hp. destruct (String.eqb k "__proto__") eqn:E.
  - apply String.eqb_eq in E. subst k. rewrite obj_set_proto.
    destruct (String.eqb "__proto__" k2) eqn:E2; [|reflexivity].
    apply String.eqb_eq in E2. congruence.
  - apply String.eqb_neq in E. now apply obj_set_read.
Qed.

Lemma obj_create_append (o : JsObject) (k v : string) :
  Js.array_index k = None -> Js.obj_create o k v = o ++ [(k, v)].
Proof.
  intros Hk. induction o as [|[k' v'] o IH]; simpl; [reflexivity|].
  unfold Js.comes_before. rewrite Hk. now rewrite IH.
Qed.

(** Without array-index keys an assignment leaves the key list alone or
    extends it at the end. *)
Lemma obj_set_keys (o : JsObject) (k v : string) :
  Js.array_index k = None ->
  Js.Object_keys (Js.obj_set o k v) = Js.Object_keys o \/
  Js.Object_keys (Js.obj_set o k v) = Js.Object_keys o ++ [k].
Proof.
  intros Hk. unfold Js.obj_set.
  destruct (String.eqb k "__proto__"); [now left|].
  destruct (Js.hasOwnProperty o k).
  - left. apply obj_update_keys.
  - right. rewrite obj_create_append by exact Hk.
    unfold Js.Object_keys. now rewrite map_app.
Qed.

Lemma StronglySorted_app_drop {A} (R : A -> A -> Prop) (l1 : list A) (x : A) (l2 : list A) :
  StronglySorted R (l1 ++ x :: l2) -> StronglySorted R (l1 ++ l2).
Proof.
  induction l1 as [|a l1 IH]; simpl; intros H.
  - now inversion H.
  - inversion H as [|? ? Hs Hf]; subst. constructor; [now apply IH|].
    rewrite Forall_app in *. destruct Hf as [H1 H2].
    split; [exact H1 | now inversion H2].
Qed.

Section SortFacts.
Context {A : Type} (cmp : A -> A -> Z).

Lemma sort_insert_Forall (P : A -> Prop) (x : A) (l : list A) :
  P x -> Forall P l -> Forall P (Js.sort_insert cmp x l).
Proof.
  intros Hx Hl. induction Hl as [|y l Hy Hl IH]; simpl.
  - now constructor.
  - destruct (0 <? cmp x y)%Z; repeat constructor; auto.
Qed.

Lemma sort_insert_In (x z : A) (l : list A) :
  In z (Js.sort_insert cmp x l) <-> z = x \/ In z l.
Proof.
  induction l as [|y l IH]; simpl.
  - intuition.
  - destruct (0 <? cmp x y)%Z; simpl; [rewrite IH|]; intuition.
Qed.

Lemma Array_sort_In (z : A) (l : list A) :
  In z (Js.Array_sort cmp l) <-> In z l.
Proof.
  induction l as [|x l IH]; simpl; [tauto|].
  unfold Js.Array_sort in *. simpl. rewrite sort_insert_In, IH. intuition.
Qed.

(** Elements that the comparator ranks equal to themselves keep their
    relative order: the sort is stable. *)
Lemma sort_insert_filter (sel : A -> bool) (x : A) (l : list A) :
  (forall y, sel x = true -> sel y = true -> cmp x y = 0%Z) ->
  filter sel (Js.sort_insert cmp x l) =
  if sel x then x :: filter sel l else filter sel l.
Proof.
  intros Heq. induction l as [|y l IH]; simpl.
  - reflexivity.
  - destruct (0 <? cmp x y)%Z eqn:E; simpl.
    + rewrite IH. destruct (sel x) eqn:Sx, (sel y) eqn:Sy; try reflexivity.
      rewrite (Heq y eq_refl Sy) in E. discriminate.
    + reflexivity.
Qed.

Lemma Array_sort_filter (sel : A -> bool) (l : list A) :
  (forall x y, sel x = true -> sel y = true -> cmp x y = 0%Z) ->
  filter sel (Js.Array_sort cmp l) = filter sel l.
Proof.
  intros Heq. induction l as [|x l IH]; simpl; [reflexivity|].
  unfold Js.Array_sort in *. simpl.
  rewrite sort_insert_filter by (intros; now apply Heq).
  now rewrite IH.
Qed.

Hypothesis cmp_trans :
  forall a b c, (cmp a b <= 0)%Z -> (cmp b c <= 0)%Z -> (cmp a c <= 0)%Z.
Hypothesis cmp_total : forall a b, (cmp a b <= 0)%Z \/ (cmp b a <= 0)%Z.

Lemma sort_insert_sorted (x : A) (l : list A) :
  StronglySorted (fun a b => (cmp a b <= 0)%Z) l ->
  StronglySorted (fun a b => (cmp a b <= 0)%Z) (Js.sort_insert cmp x l).
Proof.
  induction 1 as [|y l Hs IH Hf]; simpl.
  - repeat constructor.
  - destruct (0 <? cmp x y)%Z eqn:E.
    + constructor; [exact IH|].
      apply sort_insert_Forall; [|exact Hf].
      apply Z.ltb_lt in E. destruct (cmp_total y x); [assumption | lia].
    + apply Z.ltb_ge in E.
      constructor; [now constructor|].
      constructor; [exact E|].
      eapply Forall_impl; [|exact Hf]. intros z Hz. now apply cmp_trans with y.
Qed.

Lemma Array_sort_sorted (l : list A) :
  StronglySorted (fun a b => (cmp a b <= 0)%Z) (Js.Array_sort cmp l).
Proof.
  induction l as [|x l IH]; simpl; [constructor|].
  now apply sort_insert_sorted.
Qed.
End SortFacts.

Lemma StronglySorted_map {A B} (f : A -> B) (R : B -> B -> Prop) (l : list A) :
  StronglySorted (fun x y => R (f x) (f y)) l -> StronglySorted R (map f l).
Proof.
  induction 1 as [|x l Hs IH Hf]; simpl; constructor; [exact IH|].
  rewrite Forall_map. exact Hf.
Qed.

(* ================================================================== *)
(** ** URL decomposer *)
(* ================================================================== *)

Section DecomposerFacts.
Variable URL : string -> completion Js.URLObject.
Variable localeCompare : string -> string -> Z.
Variable Analytics : Type.
Variable logEvent : Analytics -> string -> string -> completion unit.

Let parse := parseUrl URL localeCompare Analytics logEvent.
Let assign := fun (params : JsObject) (e : string * string) =>
  Js.obj_set params (fst e) (snd e).
Let pick (k : string) := fun (acc : option string) (e : string * string) =>
  if String.eqb (fst e) k then Some (snd e) else acc.

Lemma assign_all_read (entries : list (string * string)) (o : JsObject) (k : string) :
  k <> "__proto__" ->
  Js.obj_read (fold_left assign entries o) k =
  fold_left (pick k) entries (Js.obj_read o k).
Proof.
  intros Hk. revert o.
  induction entries as [|[k' v] entries IH]; intros o; simpl; [reflexivity|].
  rewrite IH. f_equal. unfold assign, pick; simpl.
  now apply obj_set_read_any.
Qed.

Lemma pick_filter (k : string) (entries : list (string * string)) (acc : option string) :
  fold_left (pick k) entries acc =
  fold_left (pick k) (filter (fun e => String.eqb (fst e) k) entries) acc.
Proof.
  revert acc. induction entries as [|e entries IH]; intros acc; simpl; [reflexivity|].
  unfold pick at 2. destruct (String.eqb (fst e) k) eqn:E; simpl.
  - unfold pick at 3. rewrite E. apply IH.
  - apply IH.
Qed.

Lemma assign_all_wf (entries : list (string * string)) (o : JsObject) :
  wf_obj o -> wf_obj (fold_left assign entries o).
Proof.
  revert o. induction entries as [|e entries IH]; intros o Hwf; simpl; [exact Hwf|].
  apply IH. now apply obj_set_wf.
Qed.

(** The object built by the decomposer has each own key once. *)
Lemma build_params_wf (entries : list (string * string)) :
  wf_obj (build_params localeCompare entries).
Proof. apply assign_all_wf. constructor. Qed.

Lemma assign_all_keys_sorted (R : string -> string -> Prop)
      (entries : list (string * string)) (o : JsObject) :
  (forall e, In e entries -> Js.array_index (fst e) = None) ->
  StronglySorted R (Js.Object_keys o ++ map fst entries) ->
  StronglySorted R (Js.Object_keys (fold_left assign entries o)).
Proof.
  revert o. induction entries as [|[k v] entries IH]; intros o Hidx Hs; simpl in *.
  - now rewrite app_nil_r in Hs.
  - apply IH; [intros e He; apply Hidx; now right|].
    destruct (obj_set_keys o k v (Hidx (k, v) (or_introl eq_refl))) as [E|E];
      unfold assign; simpl; rewrite E.
    + now apply StronglySorted_app_drop in Hs.
    + now rewrite <- app_assoc.
Qed.

Section ConsistentComparator.
Hypothesis localeCompare_refl : forall a, localeCompare a a = 0%Z.

(** Whatever the sort does to the other entries, the value stored under a
    key other than ["__proto__"] is the one of its last entry in the query
    string. *)
Lemma build_params_last_wins (entries : list (string * string)) (k : string) :
  k <> "__proto__" ->
  Js.obj_read (build_params localeCompare entries) k = last_value entries k.
Proof.
  intros Hk. unfold build_params, last_value.
  fold assign. rewrite assign_all_read by exact Hk. simpl.
  fold (pick k). rewrite pick_filter. rewrite (pick_filter k entries).
  rewrite Array_sort_filter; [reflexivity|].
  intros x y Hx Hy. apply String.eqb_eq in Hx, Hy.
  unfold entry_compare. rewrite Hx, Hy. apply localeCompare_refl.
Qed.

Hypothesis localeCompare_trans : forall a b c,
  (localeCompare a b <= 0)%Z -> (localeCompare b c <= 0)%Z ->
  (localeCompare a c <= 0)%Z.
Hypothesis localeCompare_total : forall a b,
  (localeCompare a b <= 0)%Z \/ (localeCompare b a <= 0)%Z.

(** When no query key is an array index, the keys of the object come out
    in ascending [localeCompare] order. *)
Lemma build_params_ascending (entries : list (string * string)) :
  (forall e, In e entries -> Js.array_index (fst e) = None) ->
  ascending localeCompare (Js.Object_keys (build_params localeCompare entries)).
Proof.
  intros Hidx. unfold ascending, build_params. fold assign.
  apply assign_all_keys_sorted.
  - intros e He. apply Hidx. now apply Array_sort_In in He.
  - simpl. apply StronglySorted_map.
    apply (Array_sort_sorted (entry_compare localeCompare)).
    + intros a b c. unfold entry_compare. apply localeCompare_trans.
    + intros a b. unfold entry_compare. apply localeCompare_total.
Qed.
End ConsistentComparator.

(** What [parseUrl] returns on a string the URL parser accepts, when no
    analytics instance is configured. *)
Lemma parseUrl_accepts (url : string) (u : Js.URLObject) :
  URL url = Normal u ->
  parse None url =
  Normal (Some {| protocol := Js.String_replace ":" "" (Js.protocol u);
                  host := Js.host u;
                  path := Js.pathname u;
                  params := build_params localeCompare (Js.searchParams u) |}).
Proof.
  intros H. unfold parse, parseUrl, parseUrl_body. simpl. now rewrite H.
Qed.

(** C6.  A string that [new URL] rejects gives [null], and for every input
    and every analytics configuration the call returns normally, with a
    [ParsedURL] or with [null]: nothing is thrown past [parseUrl]. *)
Theorem parseUrl_failure_is_null (analytics : option Analytics) (url : string) :
  (URL url = Throw ->
   parseUrl URL localeCompare Analytics logEvent analytics url = Normal None) /\
  (parseUrl URL localeCompare Analytics logEvent analytics url = Normal None \/
   exists p, parseUrl URL localeCompare Analytics logEvent analytics url
             = Normal (Some p)).
Proof.
  unfold parseUrl, parseUrl_body. split.
  - intros H. rewrite H.
    destruct analytics as [a|]; simpl; [destruct (logEvent a _ _)|]; reflexivity.
  - destruct analytics as [a|]; simpl.
    + destruct (logEvent a _ _); simpl; [|now left].
      destruct (URL url); simpl; [right; eexists; reflexivity | now left].
    + destruct (URL url); simpl; [right; eexists; reflexivity | now left].
Qed.

(** C4, amended.  An analytics instance whose [logEvent] call returns leaves
    the result as it is without analytics; one whose call throws makes
    [parseUrl] return [null], whatever the input. *)
Theorem parseUrl_analytics_effect (a : Analytics) (url : string) :
  (logEvent a "parse_url" url = Normal tt ->
   parseUrl URL localeCompare Analytics logEvent (Some a) url =
   parseUrl URL localeCompare Analytics logEvent None url) /\
  (logEvent a "parse_url" url = Throw ->
   parseUrl URL localeCompare Analytics logEvent (Some a) url = Normal None).
Proof.
  unfold parseUrl, parseUrl_body. split; intros H; rewrite H; reflexivity.
Qed.

(** C3, at the failing input.  When the query string repeats the key
    ["__proto__"], the last value of the key is ["2"] but the object built
    by [parseUrl] has no such own property: both assignments went to the
    inherited setter. *)
Theorem parseUrl_proto_key_not_retained :
  URL "https://example.com?__proto__=1&__proto__=2" =
    Normal (example_origin [("__proto__", "1"); ("__proto__", "2")]) ->
  exists p,
    parseUrl URL localeCompare Analytics logEvent None
             "https://example.com?__proto__=1&__proto__=2" = Normal (Some p) /\
    last_value [("__proto__", "1"); ("__proto__", "2")] "__proto__" = Some "2" /\
    params p = [] /\
    Js.obj_read (params p) "__proto__" = None.
Proof.
  intros H. eexists. split; [apply (parseUrl_accepts _ _ H)|].
  simpl. split; [reflexivity|].
  unfold build_params.
  assert (E : forall l : list (string * string),
             Forall (fun e => fst e = "__proto__") l ->
             fold_left (fun q e => Js.obj_set q (fst e) (snd e)) l [] = []).
  { induction 1 as [|e l He Hl IH]; simpl; [reflexivity|].
    rewrite He. exact IH. }
  rewrite E; [split; reflexivity|].
  apply Forall_forall. intros e He. apply Array_sort_In in He.
  simpl in He. destruct He as [<-|[<-|[]]]; reflexivity.
Qed.

(** C5, at the failing input.  With the keys ["9"] and ["10"] the sorted
    entries are assigned in the order ["10"], ["9"], yet the object
    enumerates its array-index keys numerically: ["9"] comes first, which is
    not ascending for [localeCompare]. *)
Theorem parseUrl_index_keys_not_ascending :
  URL "https://example.com?9=a&10=b" =
    Normal (example_origin [("9", "a"); ("10", "b")]) ->
  (0 < localeCompare "9" "10")%Z ->
  exists p,
    parseUrl URL localeCompare Analytics logEvent None
             "https://example.com?9=a&10=b" = Normal (Some p) /\
    Js.Object_keys (params p) = ["9"; "10"] /\
    ~ ascending localeCompare (Js.Object_keys (params p)).
Proof.
  intros H Hlt. eexists. split; [apply (parseUrl_accepts _ _ H)|].
  assert (E : build_params localeCompare [("9", "a"); ("10", "b")]
              = [("9", "a"); ("10", "b")]).
  { unfold build_params, Js.Array_sort. simpl. unfold entry_compare at 1. simpl.
    apply Z.ltb_lt in Hlt. rewrite Hlt. reflexivity. }
  simpl. rewrite E. split; [reflexivity|].
  simpl. intros Hs. inversion Hs as [|? ? _ Hf]; subst.
  inversion Hf as [|? ? Hle _]; subst. lia.
Qed.

(** The end-to-end example of the specification: the keys [b], [a] of the
    query come out as [a], [b]. *)
Lemma parseUrl_example :
  URL "https://example.com?b=2&a=1" =
    Normal (example_origin [("b", "2"); ("a", "1")]) ->
  (0 < localeCompare "b" "a")%Z ->
  parse None "https://example.com?b=2&a=1" =
  Normal (Some {| protocol := "https"; host := "example.com"; path := "/";
                  params := [("a", "1"); ("b", "2")] |}).
Proof.
  intros H Hlt. rewrite (parseUrl_accepts _ _ H). simpl.
  unfold build_params, Js.Array_sort. simpl. unfold entry_compare at 1. simpl.
  apply Z.ltb_lt in Hlt. rewrite Hlt. reflexivity.
Qed.

(** X2.  On an accepted URL none of whose query keys is an array index, and with
    a consistent [localeCompare], the keys of [params] are ascending. *)
Lemma parseUrl_keys_ascending (url : string) (u : Js.URLObject) :
  (forall a b c, (localeCompare a b <= 0)%Z -> (localeCompare b c <= 0)%Z ->
                 (localeCompare a c <= 0)%Z) ->
  (forall a b, (localeCompare a b <= 0)%Z \/ (localeCompare b a <= 0)%Z) ->
  URL url = Normal u ->
  (forall e, In e (Js.searchParams u) -> Js.array_index (fst e) = None) ->
  exists p, parse None url = Normal (Some p) /\
            ascending localeCompare (Js.Object_keys (params p)).
Proof.
  intros Ht Hto H Hidx. eexists. split; [apply (parseUrl_accepts _ _ H)|].
  simpl. now apply build_params_ascending.
Qed.

(** X1.  On an accepted URL, a key other than ["__proto__"] carries the value of
    its last occurrence in the query string. *)
Lemma parseUrl_last_value (url : string) (u : Js.URLObject) (k : string) :
  (forall a, localeCompare a a = 0%Z) ->
  URL url = Normal u ->
  k <> "__proto__" ->
  exists p, parse None url = Normal (Some p) /\
            Js.obj_read (params p) k = last_value (Js.searchParams u) k.
Proof.
  intros Hr H Hk. eexists. split; [apply (parseUrl_accepts _ _ H)|].
  simpl. now apply build_params_last_wins.
Qed.

(** X3.  Every object that [parseUrl] returns has distinct own keys, which is
    what the comparator facts below assume of its inputs. *)
Lemma parseUrl_params_wf (analytics : option Analytics) (url : string) (p : ParsedURL) :
  parse analytics url = Normal (Some p) -> wf_obj (params p).
Proof.
  unfold parse, parseUrl, parseUrl_body.
  destruct analytics as [a|]; simpl.
  - destruct (logEvent a _ _); simpl; [|discriminate].
    destruct (URL url); simpl; [|discriminate].
    intros H. injection H as <-. apply build_params_wf.
  - destruct (URL url); simpl; [|discriminate].
    intros H. injection H as <-. apply build_params_wf.
Qed.

End DecomposerFacts.

(** Runs on the reference platform: the example of the specification, and
    a repeated key, whose last value is the one kept. *)
Example parseUrl_run_example :
  parseUrl refURL refCompare bool refLogEvent None "https://example.com?b=2&a=1" =
  Normal (Some {| protocol := "https"; host := "example.com"; path := "/";
                  params := [("a", "1"); ("b", "2")] |}).
Proof. reflexivity. Qed.

Example parseUrl_run_repeated_key :
  parseUrl refURL refCompare bool refLogEvent None "https://example.com?k=1&a=0&k=2" =
  Normal (Some {| protocol := "https"; host := "example.com"; path := "/";
                  params := [("a", "0"); ("k", "2")] |}).
Proof. reflexivity. Qed.

Lemma parseUrl_failure_is_null_witness :
  refURL "not a url" = Throw /\
  parseUrl refURL refCompare bool refLogEvent (Some true) "not a url" = Normal None.
Proof.
  split; [reflexivity|].
  apply (proj1 (parseUrl_failure_is_null refURL refCompare bool refLogEvent
                  (Some true) "not a url")).
  reflexivity.
Defined.

Lemma parseUrl_analytics_effect_witness :
  (refLogEvent true "parse_url" "https://example.com?b=2&a=1" = Normal tt /\
   parseUrl refURL refCompare bool refLogEvent (Some true) "https://example.com?b=2&a=1" =
   parseUrl refURL refCompare bool refLogEvent None "https://example.com?b=2&a=1") /\
  (refLogEvent false "parse_url" "https://example.com?b=2&a=1" = Throw /\
   parseUrl refURL refCompare bool refLogEvent (Some false) "https://example.com?b=2&a=1" =
   Normal None).
Proof.
  split; (split; [reflexivity|]).
  - apply (proj1 (parseUrl_analytics_effect refURL refCompare bool refLogEvent
                    true "https://example.com?b=2&a=1")).
    reflexivity.
  - apply (proj2 (parseUrl_analytics_effect refURL refCompare bool refLogEvent
                    false "https://example.com?b=2&a=1")).
    reflexivity.
Defined.

(** C4 as stated fails: on the same valid address a sink that throws turns
    the structured result into [null]. *)
Lemma parseUrl_failing_sink_changes_result :
  parseUrl refURL refCompare bool refLogEvent None "https://example.com?b=2&a=1" =
    Normal (Some {| protocol := "https"; host := "example.com"; path := "/";
                    params := [("a", "1"); ("b", "2")] |}) /\
  parseUrl refURL refCompare bool refLogEvent (Some false) "https://example.com?b=2&a=1" =
    Normal None /\
  parseUrl refURL refCompare bool refLogEvent (Some false) "https://example.com?b=2&a=1" <>
  parseUrl refURL refCompare bool refLogEvent None "https://example.com?b=2&a=1".
Proof.
  split; [reflexivity|]. split; [reflexivity|]. discriminate.
Qed.

Lemma parseUrl_proto_key_not_retained_witness :
  refURL "https://example.com?__proto__=1&__proto__=2" =
    Normal (example_origin [("__proto__", "1"); ("__proto__", "2")]) /\
  exists p,
    parseUrl refURL refCompare bool refLogEvent None
             "https://example.com?__proto__=1&__proto__=2" = Normal (Some p) /\
    last_value [("__proto__", "1"); ("__proto__", "2")] "__proto__" = Some "2" /\
    params p = [] /\
    Js.obj_read (params p) "__proto__" = None.
Proof.
  split; [reflexivity|].
  apply (parseUrl_proto_key_not_retained refURL refCompare bool refLogEvent).
  reflexivity.
Defined.

Lemma parseUrl_index_keys_not_ascending_witness :
  refURL "https://example.com?9=a&10=b" =
    Normal (example_origin [("9", "a"); ("10", "b")]) /\
  (0 < refCompare "9" "10")%Z /\
  exists p,
    parseUrl refURL refCompare bool refLogEvent None
             "https://example.com?9=a&10=b" = Normal (Some p) /\
    Js.Object_keys (params p) = ["9"; "10"] /\
    ~ ascending refCompare (Js.Object_keys (params p)).
Proof.
  split; [reflexivity|]. split; [reflexivity|].
  apply (parseUrl_index_keys_not_ascending refURL refCompare bool refLogEvent);
    reflexivity.
Defined.

(* ================================================================== *)
(** ** Parameter comparator *)
(* ================================================================== *)

Lemma Set_has_In (s : JsSet) (k : string) : Js.Set_has s k = true <-> In k s.
Proof.
  unfold Js.Set_has. rewrite existsb_exists. split.
  - intros [x [Hx E]]. apply String.eqb_eq in E. now subst.
  - intros H. exists k. split; [exact H | apply String.eqb_refl].
Qed.

Lemma Set_add_In (s : JsSet) (k x : string) :
  In x (Js.Set_add s k) <-> In x s \/ x = k.
Proof.
  unfold Js.Set_add. destruct (Js.Set_has s k) eqn:E.
  - apply Set_has_In in E. split; [tauto|]. intros [H| ->]; assumption.
  - rewrite in_app_iff. simpl. intuition.
Qed.

Lemma Set_add_all_In (keys : list string) (s : JsSet) (x : string) :
  In x (fold_left Js.Set_add keys s) <-> In x s \/ In x keys.
Proof.
  revert s. induction keys as [|k keys IH]; intros s; simpl.
  - tauto.
  - rewrite IH, Set_add_In. intuition.
Qed.

Lemma collect_keys_acc_In (allParams : list JsObject) (s : JsSet) (x : string) :
  In x (fold_left (fun allKeys params =>
                     fold_left Js.Set_add (Js.Object_keys params) allKeys)
                  allParams s)
  <-> In x s \/ exists p, In p allParams /\ In x (Js.Object_keys p).
Proof.
  revert s. induction allParams as [|p ps IH]; intros s; simpl.
  - split; [tauto|]. intros [H|[p [[] _]]]. exact H.
  - rewrite IH, Set_add_all_In. split.
    + intros [[H|H]|[q [Hq Hx]]]; eauto.
    + intros [H|[q [[<-|Hq] Hx]]]; eauto.
Qed.

(** [allKeys] is the union of the key sets. *)
Lemma collect_keys_In (allParams : list JsObject) (x : string) :
  In x (collect_keys allParams) <->
  exists p, In p allParams /\ In x (Js.Object_keys p).
Proof.
  unfold collect_keys. rewrite collect_keys_acc_In. simpl. tauto.
Qed.

Lemma keyExistsInAll_true (allParams : list JsObject) (key : string) :
  keyExistsInAll allParams key = true <->
  forall p, In p allParams -> Js.hasOwnProperty p key = true.
Proof. unfold keyExistsInAll. apply forallb_forall. Qed.

Lemma keyExistsInAll_false (allParams : list JsObject) (key : string) :
  keyExistsInAll allParams key = false <->
  exists p, In p allParams /\ Js.hasOwnProperty p key = false.
Proof.
  unfold keyExistsInAll. induction allParams as [|p ps IH]; simpl.
  - split; [discriminate | intros [p [[] _]]].
  - rewrite andb_false_iff, IH. split.
    + intros [H|[q [Hq H]]]; eauto.
    + intros [q [[<-|Hq] H]]; eauto.
Qed.

Lemma forallb_strict_eq_false (values : list (option string)) (v0 : option string) :
  forallb (fun v => Js.strict_eq v v0) values = false <->
  exists v, In v values /\ v <> v0.
Proof.
  induction values as [|v vs IH]; simpl.
  - split; [discriminate | intros [v [[] _]]].
  - rewrite andb_false_iff, IH. split.
    + intros [H|[w [Hw H]]]; [|eauto].
      exists v. split; [now left|]. intros E. apply strict_eq_true in E. congruence.
    + intros [w [[<-|Hw] H]]; [|eauto].
      left. destruct (Js.strict_eq v v0) eqn:E; [|reflexivity].
      apply strict_eq_true in E. contradiction.
Qed.

(** With at least two maps, [hasValueDiff] says that two of them read the
    key differently. *)
Lemma hasValueDiff_true (allParams : list JsObject) (key : string) :
  2 <= List.length allParams ->
  (hasValueDiff allParams key = true <->
   exists p q, In p allParams /\ In q allParams /\
               Js.obj_read p key <> Js.obj_read q key).
Proof.
  intros Hlen. unfold hasValueDiff. rewrite length_map.
  destruct allParams as [|first rest]; [simpl in Hlen; lia|].
  assert (Hl : (1 <? List.length (first :: rest))%nat = true)
    by (apply Nat.ltb_lt; lia).
  rewrite Hl. cbn [map andb]. rewrite negb_true_iff, forallb_strict_eq_false.
  change (Js.obj_read first key :: map (fun params => Js.obj_read params key) rest)
    with (map (fun params => Js.obj_read params key) (first :: rest)).
  split.
  - intros [v [Hv Hne]]. apply in_map_iff in Hv. destruct Hv as [p [<- Hp]].
    exists p, first. repeat split; [exact Hp | now left | exact Hne].
  - intros [p [q [Hp [Hq Hne]]]].
    destruct (Js.strict_eq (Js.obj_read p key) (Js.obj_read first key)) eqn:E.
    + apply strict_eq_true in E. exists (Js.obj_read q key). split.
      * apply in_map_iff. now exists q.
      * congruence.
    + exists (Js.obj_read p key). split.
      * apply in_map_iff. now exists p.
      * intros E'. apply strict_eq_true in E'. congruence.
Qed.

(** The two sets after the loop over [allKeys]. *)
Lemma classify_all_missing (allParams : list JsObject) (keys : list string)
      (acc : Differences) (x : string) :
  In x (missing (fold_left (classify allParams) keys acc)) <->
  In x (missing acc) \/ (In x keys /\ keyExistsInAll allParams x = false).
Proof.
  revert acc. induction keys as [|k keys IH]; intros acc; simpl.
  - tauto.
  - rewrite IH. unfold classify.
    destruct (keyExistsInAll allParams k) eqn:E; simpl.
    + destruct (hasValueDiff allParams k); simpl; split;
        intros [H|[H1 H2]]; auto; destruct H1 as [<-|H1]; auto; congruence.
    + rewrite Set_add_In. split.
      * intros [[H| ->]|[H1 H2]]; auto.
      * intros [H|[[<-|H1] H2]]; auto.
Qed.

Lemma classify_all_valueChanged (allParams : list JsObject) (keys : list string)
      (acc : Differences) (x : string) :
  In x (valueChanged (fold_left (classify allParams) keys acc)) <->
  In x (valueChanged acc) \/
  (In x keys /\ keyExistsInAll allParams x = true /\ hasValueDiff allParams x = true).
Proof.
  revert acc. induction keys as [|k keys IH]; intros acc; simpl.
  - tauto.
  - rewrite IH. unfold classify.
    destruct (keyExistsInAll allParams k) eqn:E; simpl.
    + destruct (hasValueDiff allParams k) eqn:D; simpl.
      * rewrite Set_add_In. split.
        -- intros [[H| ->]|[H1 H2]]; auto.
        -- intros [H|[[<-|H1] H2]]; auto.
      * split; intros [H|[H1 [H2 H3]]]; auto; destruct H1 as [<-|H1]; auto; congruence.
    + split; intros [H|[H1 [H2 H3]]]; auto; destruct H1 as [<-|H1]; auto; congruence.
Qed.

Lemma paramsEqual_true (p first : JsObject) :
  paramsEqual p first = true <-> matches_reference first p.
Proof.
  unfold paramsEqual, matches_reference.
  destruct (List.length (Js.Object_keys p) =? List.length (Js.Object_keys first))%nat eqn:E;
    simpl.
  - apply Nat.eqb_eq in E. rewrite forallb_forall. split.
    + intros H. split; [exact E|]. intros k Hk. apply strict_eq_true. now apply H.
    + intros [_ H] k Hk. apply strict_eq_true. now apply H.
  - apply Nat.eqb_neq in E. split; [discriminate | intros [H _]; contradiction].
Qed.

Lemma obj_read_In (o : JsObject) (k : string) :
  In k (Js.Object_keys o) <-> Js.obj_read o k <> None.
Proof.
  rewrite <- hasOwnProperty_In. rewrite obj_read_None.
  destruct (Js.hasOwnProperty o k); split; congruence.
Qed.

(** Reading the same under every key is having the same keys and agreeing
    on them. *)
Lemma same_reads_iff (p q : JsObject) :
  (forall k, Js.obj_read p k = Js.obj_read q k) <->
  same_key_set p q /\ same_values p q.
Proof.
  split.
  - intros H. split.
    + intros k. rewrite !obj_read_In. now rewrite H.
    + intros k v w Hp Hq. rewrite H in Hp. congruence.
  - intros [Hk Hv] k.
    destruct (Js.obj_read p k) as [v|] eqn:Ep, (Js.obj_read q k) as [w|] eqn:Eq;
      try reflexivity.
    + f_equal. eapply Hv; eassumption.
    + assert (Hin : In k (Js.Object_keys p)) by (apply obj_read_In; congruence).
      apply Hk, obj_read_In in Hin. contradiction.
    + assert (Hin : In k (Js.Object_keys q)) by (apply obj_read_In; congruence).
      apply Hk, obj_read_In in Hin. contradiction.
Qed.

(** On objects, whose keys are distinct, the check of [paramsEqual] decides
    equality of the two maps: equal cardinality turns inclusion of the key
    sets into equality. *)
Lemma matches_reference_same_reads (first p : JsObject) :
  wf_obj p -> wf_obj first ->
  (matches_reference first p <-> forall k, Js.obj_read p k = Js.obj_read first k).
Proof.
  intros Hp Hf. unfold matches_reference. split.
  - intros [Hlen Hrd].
    assert (Hincl : incl (Js.Object_keys p) (Js.Object_keys first)).
    { intros k Hk. apply obj_read_In. rewrite (Hrd k Hk). now apply obj_read_In. }
    assert (Hback : incl (Js.Object_keys first) (Js.Object_keys p)).
    { apply NoDup_length_incl; [exact Hp | lia | exact Hincl]. }
    intros k. destruct (Js.obj_read p k) as [v|] eqn:E.
    + rewrite <- E. symmetry. apply Hrd. apply obj_read_In. congruence.
    + destruct (Js.obj_read first k) eqn:E'; [|reflexivity].
      assert (Hin : In k (Js.Object_keys first)) by (apply obj_read_In; congruence).
      apply Hback, obj_read_In in Hin. contradiction.
  - intros H.
    assert (Hset : forall k, In k (Js.Object_keys p) <-> In k (Js.Object_keys first)).
    { intros k. rewrite !obj_read_In. now rewrite H. }
    split.
    + apply Nat.le_antisymm; apply NoDup_incl_length; try assumption;
        intros k Hk; now apply Hset.
    + intros k _. symmetry. apply H.
Qed.

Lemma allSame_true (allParams : list JsObject) :
  2 <= List.length allParams ->
  (allSame allParams = true <->
   forall p, In p allParams -> matches_reference (reference allParams) p).
Proof.
  intros Hlen. unfold allSame, canCompare.
  assert (Hl : (1 <? List.length allParams)%nat = true) by (apply Nat.ltb_lt; lia).
  rewrite Hl. simpl.
  destruct allParams as [|first rest]; [simpl in Hlen; lia|].
  cbn [reference]. rewrite forallb_forall.
  split; intros H p Hp; apply paramsEqual_true; now apply H.
Qed.

Lemma allSame_same_reads (allParams : list JsObject) :
  2 <= List.length allParams ->
  Forall wf_obj allParams ->
  (allSame allParams = true <->
   forall p q, In p allParams -> In q allParams ->
               forall k, Js.obj_read p k = Js.obj_read q k).
Proof.
  intros Hlen Hwf. rewrite allSame_true by exact Hlen.
  rewrite Forall_forall in Hwf.
  assert (Hfirst : In (reference allParams) allParams).
  { destruct allParams; [simpl in Hlen; lia | now left]. }
  split.
  - intros H p q Hp Hq k.
    pose proof (proj1 (matches_reference_same_reads _ p (Hwf p Hp) (Hwf _ Hfirst))
                      (H p Hp) k) as E1.
    pose proof (proj1 (matches_reference_same_reads _ q (Hwf q Hq) (Hwf _ Hfirst))
                      (H q Hq) k) as E2.
    congruence.
  - intros H p Hp. apply matches_reference_same_reads; auto.
Qed.

(** C8.  For at least two parameter maps, [allSame] holds exactly when any
    two of the maps have the same key set and agree on their shared keys;
    and exactly when every map has the cardinality of the first one and
    passes the key-by-key check against it. *)
Theorem allSame_iff_identical (allParams : list JsObject) :
  2 <= List.length allParams ->
  Forall wf_obj allParams ->
  (allSame allParams = true <->
   forall p q, In p allParams -> In q allParams ->
               same_key_set p q /\ same_values p q) /\
  (allSame allParams = true <->
   forall p, In p allParams -> matches_reference (reference allParams) p).
Proof.
  intros Hlen Hwf. split; [|now apply allSame_true].
  rewrite allSame_same_reads by assumption.
  split; intros H p q Hp Hq; apply same_reads_iff; now apply H.
Qed.

(** C7.  For at least two parameter maps and a key of their union, that is
    an own key of one of the maps: a key that some map lacks is in
    [missing]; a key that every map has, with two maps reading it
    differently, is in [valueChanged]; a key that every map has with one and
    the same value is in neither set. *)
Theorem getDifferentParamKeys_classifies (allParams : list JsObject) (key : string) :
  2 <= List.length allParams ->
  Forall wf_obj allParams ->
  (exists p, In p allParams /\ In key (Js.Object_keys p)) ->
  ((exists p, In p allParams /\ Js.hasOwnProperty p key = false) ->
   In key (missing (getDifferentParamKeys allParams))) /\
  ((forall p, In p allParams -> Js.hasOwnProperty p key = true) ->
   (exists p q, In p allParams /\ In q allParams /\
                Js.obj_read p key <> Js.obj_read q key) ->
   In key (valueChanged (getDifferentParamKeys allParams))) /\
  ((forall p, In p allParams -> Js.hasOwnProperty p key = true) ->
   (forall p q, In p allParams -> In q allParams ->
                Js.obj_read p key = Js.obj_read q key) ->
   ~ In key (missing (getDifferentParamKeys allParams)) /\
   ~ In key (valueChanged (getDifferentParamKeys allParams))).
Proof.
  intros Hlen Hwf Hkey. apply (proj2 (collect_keys_In allParams key)) in Hkey.
  unfold getDifferentParamKeys.
  assert (Hl : canCompare allParams = true) by (apply Nat.ltb_lt; lia).
  rewrite Hl. cbn [negb orb].
  destruct (allSame allParams) eqn:Hsame.
  - pose proof (proj1 (allSame_same_reads allParams Hlen Hwf) Hsame) as Heq.
    split; [|split].
    + intros [p [Hp Hno]]. exfalso.
      apply collect_keys_In in Hkey. destruct Hkey as [m [Hm Hin]].
      apply obj_read_In in Hin. apply obj_read_None in Hno.
      rewrite (Heq m p Hm Hp key) in Hin. contradiction.
    + intros _ [p [q [Hp [Hq Hne]]]]. exfalso. apply Hne. now apply Heq.
    + intros _ _. simpl. tauto.
  - split; [|split].
    + intros Hex. apply classify_all_missing. right.
      split; [exact Hkey | now apply keyExistsInAll_false].
    + intros Hall Hne. apply classify_all_valueChanged. right.
      split; [exact Hkey|]. split; [now apply keyExistsInAll_true|].
      now apply hasValueDiff_true.
    + intros Hall Hsameval. split.
      * intros H. apply classify_all_missing in H. simpl in H.
        destruct H as [[]|[_ H]].
        apply keyExistsInAll_true in Hall. congruence.
      * intros H. apply classify_all_valueChanged in H. simpl in H.
        destruct H as [[]|[_ [_ H]]].
        apply hasValueDiff_true in H; [|exact Hlen].
        destruct H as [p [q [Hp [Hq Hne]]]]. apply Hne. now apply Hsameval.
Qed.

(** C10.  Whatever the sequence of maps, no key is both in [missing] and in
    [valueChanged]. *)
Theorem getDifferentParamKeys_disjoint (allParams : list JsObject) (key : string) :
  ~ (In key (missing (getDifferentParamKeys allParams)) /\
     In key (valueChanged (getDifferentParamKeys allParams))).
Proof.
  unfold getDifferentParamKeys.
  destruct (negb (canCompare allParams) || allSame allParams).
  - simpl. tauto.
  - intros [Hm Hv].
    apply classify_all_missing in Hm. apply classify_all_valueChanged in Hv.
    simpl in Hm, Hv.
    destruct Hm as [[]|[_ Hm]]. destruct Hv as [[]|[_ [Hv _]]]. congruence.
Qed.

Lemma getDifferentParamKeys_classifies_witness :
  2 <= List.length [[("a", "1"); ("b", "2")]; [("a", "1")]] /\
  Forall wf_obj [[("a", "1"); ("b", "2")]; [("a", "1")]] /\
  (exists p, In p [[("a", "1"); ("b", "2")]; [("a", "1")]] /\
             In "b" (Js.Object_keys p)) /\
  In "b" (missing (getDifferentParamKeys [[("a", "1"); ("b", "2")]; [("a", "1")]])).
Proof.
  assert (Hlen : 2 <= List.length [[("a", "1"); ("b", "2")]; [("a", "1")]])
    by (simpl; lia).
  assert (Hwf : Forall wf_obj [[("a", "1"); ("b", "2")]; [("a", "1")]]).
  { repeat constructor; simpl; intuition discriminate. }
  assert (Hkey : exists p, In p [[("a", "1"); ("b", "2")]; [("a", "1")]] /\
                           In "b" (Js.Object_keys p)).
  { exists [("a", "1"); ("b", "2")]. simpl. tauto. }
  repeat split; try assumption.
  apply (proj1 (getDifferentParamKeys_classifies _ "b" Hlen Hwf Hkey)).
  exists [("a", "1")]. split; [simpl; tauto | reflexivity].
Defined.

Lemma allSame_iff_identical_witness :
  2 <= List.length [[("a", "1")]; [("a", "1")]] /\
  Forall wf_obj [[("a", "1")]; [("a", "1")]] /\
  (allSame [[("a", "1")]; [("a", "1")]] = true <->
   forall p q, In p [[("a", "1")]; [("a", "1")]] ->
               In q [[("a", "1")]; [("a", "1")]] ->
               same_key_set p q /\ same_values p q).
Proof.
  assert (Hlen : 2 <= List.length [[("a", "1")]; [("a", "1")]]) by (simpl; lia).
  assert (Hwf : Forall wf_obj [[("a", "1")]; [("a", "1")]]).
  { repeat constructor; simpl; intuition discriminate. }
  split; [exact Hlen|]. split; [exact Hwf|].
  exact (proj1 (allSame_iff_identical _ Hlen Hwf)).
Defined.

(** The comparator examples of the specification. *)
Example compare_identical :
  getDifferentParamKeys [[("a", "1")]; [("a", "1")]]
  = {| missing := []; valueChanged := [] |} /\
  allSame [[("a", "1")]; [("a", "1")]] = true.
Proof. split; reflexivity. Qed.

Example compare_missing :
  getDifferentParamKeys [[("a", "1"); ("b", "2")]; [("a", "1")]]
  = {| missing := ["b"]; valueChanged := [] |}.
Proof. reflexivity. Qed.

Example compare_changed :
  getDifferentParamKeys [[("a", "1")]; [("a", "2")]]
  = {| missing := []; valueChanged := ["a"] |}.
Proof. reflexivity. Qed.

Lemma allParams_of_wf (parsed : list (option ParsedURL)) :
  (forall q, In (Some q) parsed -> wf_obj (params q)) ->
  Forall wf_obj (allParams_of parsed).
Proof.
  intros H. apply Forall_forall. intros o Ho.
  unfold allParams_of in Ho. apply in_flat_map in Ho.
  destruct Ho as [[q|] [Hq Hin]]; simpl in Hin; [|contradiction].
  destruct Hin as [<-|[]]. now apply H.
Qed.

(** Fewer than two maps: nothing to compare, both sets are empty. *)
Lemma getDifferentParamKeys_short (allParams : list JsObject) :
  List.length allParams < 2 ->
  getDifferentParamKeys allParams = {| missing := []; valueChanged := [] |}.
Proof.
  intros H. unfold getDifferentParamKeys, canCompare.
  assert (E : (1 <? List.length allParams)%nat = false) by (apply Nat.ltb_ge; lia).
  now rewrite E.
Qed.

(* ================================================================== *)
(** ** State codec *)
(* ================================================================== *)

Lemma rows_from_url (notes urls : list string) (start : nat) :
  map url (map (fun iu : nat * string =>
                  {| url := snd iu; note := nth (fst iu) notes "" |})
               (combine (seq start (List.length urls)) urls)) = urls.
Proof.
  revert start. induction urls as [|u urls IH]; intros start; simpl; [reflexivity|].
  now rewrite IH.
Qed.

Lemma rows_from_note (notes urls : list string) (start : nat) :
  map note (map (fun iu : nat * string =>
                   {| url := snd iu; note := nth (fst iu) notes "" |})
                (combine (seq start (List.length urls)) urls))
  = map (fun i => nth i notes "") (seq start (List.length urls)).
Proof.
  revert start. induction urls as [|u urls IH]; intros start; simpl; [reflexivity|].
  now rewrite IH.
Qed.

Lemma rows_length (urls notes : list string) :
  List.length (rows urls notes) = List.length urls.
Proof.
  unfold rows. rewrite length_map, length_combine, length_seq. apply Nat.min_id.
Qed.

Lemma nth_seq_suffix (pre l : list string) :
  map (fun i => nth i (pre ++ l) "") (seq (List.length pre) (List.length l)) = l.
Proof.
  revert pre. induction l as [|x l IH]; intros pre; simpl; [reflexivity|].
  rewrite nth_middle. f_equal.
  specialize (IH (pre ++ [x])).
  rewrite <- app_assoc, length_app, Nat.add_1_r in IH. exact IH.
Qed.

(** The rows of a state whose notes are as many as its urls carry exactly
    these notes. *)
Lemma rows_note_synced (urls notes : list string) :
  List.length notes = List.length urls -> map note (rows urls notes) = notes.
Proof.
  intros H. unfold rows. rewrite rows_from_note, <- H.
  exact (nth_seq_suffix [] notes).
Qed.

Lemma syncNotes_length (prev : list string) (n : nat) :
  List.length (syncNotes prev n) = n.
Proof.
  unfold syncNotes.
  destruct (List.length prev =? n)%nat eqn:E; [now apply Nat.eqb_eq in E|].
  destruct (List.length prev <? n)%nat eqn:L.
  - apply Nat.ltb_lt in L. rewrite length_app, repeat_length. lia.
  - apply Nat.ltb_ge in L. rewrite length_firstn. lia.
Qed.

Lemma filter_nonEmpty_id (l : list string) :
  Forall (fun s => nonEmpty s = true) l -> filter nonEmpty l = l.
Proof.
  intros H. apply forallb_filter_id. now apply forallb_forall, Forall_forall.
Qed.

Lemma filter_nonEmpty_repeat (n : nat) : filter nonEmpty (repeat "" n) = [].
Proof. induction n; simpl; auto. Qed.

(** Cutting or padding keeps, of notes that are all non-empty, the first
    [n]. *)
Lemma syncNotes_values (prev : list string) (n : nat) :
  Forall (fun s => nonEmpty s = true) prev ->
  filter nonEmpty (syncNotes prev n) = firstn n prev.
Proof.
  intros H. unfold syncNotes.
  destruct (List.length prev =? n)%nat eqn:E.
  - apply Nat.eqb_eq in E. subst n. rewrite firstn_all. now apply filter_nonEmpty_id.
  - destruct (List.length prev <? n)%nat eqn:L.
    + apply Nat.ltb_lt in L.
      rewrite filter_app, filter_nonEmpty_repeat, app_nil_r.
      rewrite firstn_all2 by lia. now apply filter_nonEmpty_id.
    + apply filter_nonEmpty_id. apply Forall_forall. intros s Hs.
      rewrite Forall_forall in H. apply H.
      rewrite <- (firstn_skipn n prev). apply in_or_app. now left.
Qed.

Lemma filter_Boolean_nonEmpty (l : list (option string)) :
  Forall (fun s => nonEmpty s = true) (filter_Boolean l).
Proof.
  induction l as [|[[|c s]|] l IH]; simpl; auto.
Qed.

Lemma decode_urls (search : URLSearchParams) :
  map url (decode search) = getInitialUrls search.
Proof. unfold decode, rows. apply rows_from_url. Qed.

Lemma decode_notes (search : URLSearchParams) :
  map note (decode search) =
  syncNotes (getInitialNotes search) (List.length (getInitialUrls search)).
Proof. unfold decode. apply rows_note_synced, syncNotes_length. Qed.

(** Notes never add a slot: there are as many slots as urls read. *)
Lemma decode_length (search : URLSearchParams) :
  List.length (decode search) = List.length (getInitialUrls search).
Proof. unfold decode. apply rows_length. Qed.

(** X15.  [decode] always yields between one and three slots, whatever the
    address bar holds. *)
Lemma decode_length_bounds (search : URLSearchParams) :
  1 <= List.length (decode search) <= 3.
Proof.
  rewrite decode_length. unfold getInitialUrls.
  destruct (Js.usp_get search "url1") as [[|? ?]|];
    destruct (Js.usp_get search "url2") as [[|? ?]|];
    destruct (Js.usp_get search "url3") as [[|? ?]|]; simpl; lia.
Qed.

(** The non-empty notes of the decoded slots are the first notes read, as
    many as there are slots. *)
Lemma decode_note_values (search : URLSearchParams) :
  note_values (decode search) =
  firstn (List.length (decode search)) (getInitialNotes search).
Proof.
  unfold note_values. rewrite decode_notes, decode_length.
  apply syncNotes_values, filter_Boolean_nonEmpty.
Qed.

(** Case analysis for the bounded slot lists: at most three slots, each
    field empty or not. *)
Ltac split_field s := destruct s as [|? ?].
Ltac split_slot s :=
  let u := fresh "u" in let n := fresh "n" in
  destruct s as [u n]; split_field u; split_field n.
Ltac bounded_slots slots H :=
  destruct slots as [|?s1 [|?s2 [|?s3 [|?s4 ?rest]]]];
  [ | split_slot s1 | split_slot s1; split_slot s2
    | split_slot s1; split_slot s2; split_slot s3
    | simpl in H; lia ].

(** With at most three slots, the urls read back are the non-empty urls
    written, or the single empty url when there was none. *)
Lemma encode_getInitialUrls (slots : list UrlSlot) :
  List.length slots <= 3 ->
  getInitialUrls (encode slots) =
  match url_values slots with
  | [] => [""]
  | _ :: _ => url_values slots
  end.
Proof. intros H. bounded_slots slots H; reflexivity. Qed.

(** With at most three slots, the notes read back are the non-empty notes
    written. *)
Lemma encode_getInitialNotes (slots : list UrlSlot) :
  List.length slots <= 3 ->
  getInitialNotes (encode slots) = note_values slots.
Proof. intros H. bounded_slots slots H; reflexivity. Qed.

Lemma filter_nonEmpty_idem (l : list string) :
  filter nonEmpty (filter nonEmpty l) = filter nonEmpty l.
Proof.
  apply filter_nonEmpty_id, Forall_forall. intros s Hs.
  now apply filter_In in Hs.
Qed.

Lemma note_values_le_url_values (slots : list UrlSlot) :
  (forall s, In s slots -> nonEmpty (note s) = true -> nonEmpty (url s) = true) ->
  List.length (note_values slots) <= List.length (url_values slots).
Proof.
  unfold note_values, url_values.
  induction slots as [|s slots IH]; intros H; simpl; [lia|].
  assert (IH' := IH (fun t Ht => H t (or_intror Ht))).
  assert (Hs := H s (or_introl eq_refl)).
  destruct (nonEmpty (note s)); simpl.
  - rewrite Hs by reflexivity. simpl. lia.
  - destruct (nonEmpty (url s)); simpl; lia.
Qed.

(** C2, at the failing input.  With [url1], [url2] and [note2] present, the
    note stored under index 2 is attached to the slot read from [url1], and
    the slot read from [url2] gets none; the same happens to the state
    written by [encode] for a noteless first slot. *)
Theorem decode_note_index_shifted :
  Js.usp_get [("url1", "a"); ("url2", "b"); ("note2", "n")] "note1" = None /\
  Js.usp_get [("url1", "a"); ("url2", "b"); ("note2", "n")] "note2" = Some "n" /\
  decode [("url1", "a"); ("url2", "b"); ("note2", "n")]
  = [{| url := "a"; note := "n" |}; {| url := "b"; note := "" |}] /\
  encode [{| url := "a"; note := "" |}; {| url := "b"; note := "n" |}]
  = [("url1", "a"); ("url2", "b"); ("note2", "n")].
Proof. repeat split. Qed.

(** C9.  Without [url1], [url2] and [url3] the decoder yields one slot, and
    its url is empty. *)
Theorem decode_default_slot (search : URLSearchParams) :
  Js.usp_get search "url1" = None ->
  Js.usp_get search "url2" = None ->
  Js.usp_get search "url3" = None ->
  List.length (decode search) = 1 /\ map url (decode search) = [""].
Proof.
  intros H1 H2 H3. rewrite decode_length, decode_urls.
  unfold getInitialUrls. rewrite H1, H2, H3. split; reflexivity.
Qed.

Lemma decode_default_slot_witness :
  Js.usp_get [] "url1" = None /\
  Js.usp_get [] "url2" = None /\
  Js.usp_get [] "url3" = None /\
  List.length (decode []) = 1 /\ map url (decode []) = [""].
Proof.
  repeat (split; [reflexivity|]).
  apply (decode_default_slot []); reflexivity.
Defined.

(** The codec examples of the specification. *)
Example encode_example :
  encode [{| url := "https://example.com"; note := "" |}; {| url := ""; note := "" |}]
  = [("url1", "https://example.com")].
Proof. reflexivity. Qed.

Example decode_empty : decode [] = [{| url := ""; note := "" |}].
Proof. reflexivity. Qed.

(* ================================================================== *)
(** ** Further facts: URL decomposer *)
(* ================================================================== *)

Lemma obj_set_keys_In (o : JsObject) (k v x : string) :
  In x (Js.Object_keys (Js.obj_set o k v)) <->
  In x (Js.Object_keys o) \/ (x = k /\ k <> "__proto__").
Proof.
  unfold Js.obj_set. destruct (String.eqb k "__proto__") eqn:E.
  - apply String.eqb_eq in E. split; [tauto|]. intros [H|[_ H]]; [exact H | contradiction].
  - apply String.eqb_neq in E.
    destruct (Js.hasOwnProperty o k) eqn:Hh.
    + rewrite obj_update_keys. apply hasOwnProperty_In in Hh.
      split; [tauto|]. intros [H|[-> _]]; assumption.
    + rewrite obj_create_keys_In. tauto.
Qed.

Lemma assign_all_keys_In (entries : list (string * string)) (o : JsObject) (x : string) :
  In x (Js.Object_keys
          (fold_left (fun q e => Js.obj_set q (fst e) (snd e)) entries o)) <->
  In x (Js.Object_keys o) \/ (x <> "__proto__" /\ In x (map fst entries)).
Proof.
  revert o. induction entries as [|[k v] entries IH]; intros o; simpl.
  - tauto.
  - rewrite IH, obj_set_keys_In. split.
    + intros [[H|[-> H]]|[H1 H2]]; auto.
    + intros [H|[H1 [<-|H2]]]; auto.
Qed.

(** The own keys of the object built from a query are the query keys,
    ["__proto__"] left out. *)
Lemma build_params_keys (cmp : string -> string -> Z)
      (entries : list (string * string)) (x : string) :
  In x (Js.Object_keys (build_params cmp entries)) <->
  x <> "__proto__" /\ In x (map fst entries).
Proof.
  unfold build_params. rewrite assign_all_keys_In. simpl.
  assert (E : In x (map fst (Js.Array_sort (entry_compare cmp) entries)) <->
              In x (map fst entries)).
  { rewrite !in_map_iff. split; intros [e [He Hin]]; exists e; split; auto;
      now apply Array_sort_In in Hin || apply Array_sort_In. }
  rewrite E. tauto.
Qed.

Lemma refCompare_refl (a : string) : refCompare a a = 0%Z.
Proof.
  unfold refCompare.
  assert (E : String.compare a a = Eq).
  { induction a as [|c a IH]; simpl; [reflexivity|].
    unfold Ascii.compare. now rewrite N.compare_refl. }
  now rewrite E.
Qed.

Lemma refCompare_total (a b : string) :
  (refCompare a b <= 0)%Z \/ (refCompare b a <= 0)%Z.
Proof.
  unfold refCompare. rewrite (String.compare_antisym a b).
  destruct (String.compare b a); simpl; lia.
Qed.

Lemma refCompare_le (a b : string) :
  (refCompare a b <= 0)%Z <-> String.compare a b <> Gt.
Proof.
  unfold refCompare. destruct (String.compare a b); split; (lia || congruence).
Qed.

Lemma refCompare_trans (a b c : string) :
  (refCompare a b <= 0)%Z -> (refCompare b c <= 0)%Z -> (refCompare a c <= 0)%Z.
Proof.
  rewrite !refCompare_le. revert b c.
  induction a as [|x a IH]; intros b c Hab Hbc.
  - destruct c; simpl; congruence.
  - destruct b as [|y b]; [simpl in Hab; congruence|].
    destruct c as [|z c]; [simpl in Hbc; congruence|].
    simpl in *. unfold Ascii.compare in *.
    destruct (N.compare_spec (N_of_ascii x) (N_of_ascii y)) as [Exy|Lxy|Gxy];
      try congruence;
      destruct (N.compare_spec (N_of_ascii y) (N_of_ascii z)) as [Eyz|Lyz|Gyz];
      try congruence.
    + rewrite Exy, Eyz, N.compare_refl. now apply IH with b.
    + rewrite Exy. apply N.compare_lt_iff in Lyz. rewrite Lyz. congruence.
    + rewrite <- Eyz. apply N.compare_lt_iff in Lxy. rewrite Lxy. congruence.
    + assert (L : (N_of_ascii x < N_of_ascii z)%N) by lia.
      apply N.compare_lt_iff in L. rewrite L. congruence.
Qed.

Section MoreDecomposerFacts.
Variable URL : string -> completion Js.URLObject.
Variable localeCompare : string -> string -> Z.
Variable Analytics : Type.
Variable logEvent : Analytics -> string -> string -> completion unit.

(** X4.  The keys of [params] are exactly the keys of the query string other
    than ["__proto__"]. *)
Theorem parseUrl_params_keys (url : string) (u : Js.URLObject) :
  URL url = Normal u ->
  exists p,
    parseUrl URL localeCompare Analytics logEvent None url = Normal (Some p) /\
    forall k, Js.hasOwnProperty (params p) k = true <->
              k <> "__proto__" /\ In k (map fst (Js.searchParams u)).
Proof.
  intros H. eexists. split.
  - apply (parseUrl_accepts URL localeCompare Analytics logEvent _ _ H).
  - intros k. simpl. rewrite hasOwnProperty_In. apply build_params_keys.
Qed.

(** X5.  A value for which [isValidUrl] answers [true] is parsed by [parseUrl]
    into a record whose protocol is [http] or [https]. *)
Theorem isValidUrl_parses (s : string) :
  isValidUrl URL s = true ->
  exists p,
    parseUrl URL localeCompare Analytics logEvent None s = Normal (Some p) /\
    (protocol p = "http" \/ protocol p = "https").
Proof.
  unfold isValidUrl. destruct (URL s) as [u|] eqn:E; [|discriminate].
  intros H. eexists. split.
  - apply (parseUrl_accepts URL localeCompare Analytics logEvent _ _ E).
  - simpl. apply orb_true_iff in H.
    destruct H as [H|H]; apply String.eqb_eq in H; rewrite H; [left|right]; reflexivity.
Qed.

(** What [new URL] rejects is not a valid url for [isValidUrl] either, and
    [parseUrl] answers [null] on it. *)
Lemma isValidUrl_rejects (s : string) :
  URL s = Throw ->
  isValidUrl URL s = false /\
  parseUrl URL localeCompare Analytics logEvent None s = Normal None.
Proof.
  intros H. unfold isValidUrl, parseUrl, parseUrl_body. now rewrite H.
Qed.
End MoreDecomposerFacts.

Lemma parseUrl_last_value_witness :
  refURL "https://example.com?k=1&a=0&k=2" =
    Normal (example_origin [("k", "1"); ("a", "0"); ("k", "2")]) /\
  "k" <> "__proto__" /\
  exists p,
    parseUrl refURL refCompare bool refLogEvent None "https://example.com?k=1&a=0&k=2"
    = Normal (Some p) /\
    Js.obj_read (params p) "k" =
    last_value (Js.searchParams (example_origin [("k", "1"); ("a", "0"); ("k", "2")])) "k".
Proof.
  split; [reflexivity|]. split; [discriminate|].
  apply (parseUrl_last_value refURL refCompare bool refLogEvent
           "https://example.com?k=1&a=0&k=2"
           (example_origin [("k", "1"); ("a", "0"); ("k", "2")]) "k" refCompare_refl);
    [reflexivity | discriminate].
Defined.

Lemma parseUrl_keys_ascending_witness :
  refURL "https://example.com?b=2&a=1" =
    Normal (example_origin [("b", "2"); ("a", "1")]) /\
  exists p,
    parseUrl refURL refCompare bool refLogEvent None "https://example.com?b=2&a=1"
    = Normal (Some p) /\
    ascending refCompare (Js.Object_keys (params p)).
Proof.
  split; [reflexivity|].
  apply (parseUrl_keys_ascending refURL refCompare bool refLogEvent
           "https://example.com?b=2&a=1"
           (example_origin [("b", "2"); ("a", "1")])
           refCompare_trans refCompare_total);
    [reflexivity|].
  intros e [<-|[<-|[]]]; reflexivity.
Defined.

Lemma parseUrl_params_wf_witness :
  parseUrl refURL refCompare bool refLogEvent None "https://example.com?k=1&a=0&k=2" =
    Normal (Some {| protocol := "https"; host := "example.com"; path := "/";
                    params := [("a", "0"); ("k", "2")] |}) /\
  wf_obj [("a", "0"); ("k", "2")].
Proof.
  split; [reflexivity|].
  apply (parseUrl_params_wf refURL refCompare bool refLogEvent None
           "https://example.com?k=1&a=0&k=2"
           {| protocol := "https"; host := "example.com"; path := "/";
              params := [("a", "0"); ("k", "2")] |}).
  reflexivity.
Defined.

Lemma parseUrl_params_keys_witness :
  refURL "https://example.com?__proto__=1&__proto__=2" =
    Normal (example_origin [("__proto__", "1"); ("__proto__", "2")]) /\
  exists p,
    parseUrl refURL refCompare bool refLogEvent None
             "https://example.com?__proto__=1&__proto__=2" = Normal (Some p) /\
    forall k, Js.hasOwnProperty (params p) k = true <->
              k <> "__proto__" /\
              In k (map fst (Js.searchParams
                               (example_origin [("__proto__", "1"); ("__proto__", "2")]))).
Proof.
  split; [reflexivity|].
  apply (parseUrl_params_keys refURL refCompare bool refLogEvent
           "https://example.com?__proto__=1&__proto__=2"
           (example_origin [("__proto__", "1"); ("__proto__", "2")])).
  reflexivity.
Defined.

Lemma isValidUrl_parses_witness :
  isValidUrl refURL "https://example.com?b=2&a=1" = true /\
  exists p,
    parseUrl refURL refCompare bool refLogEvent None "https://example.com?b=2&a=1"
    = Normal (Some p) /\
    (protocol p = "http" \/ protocol p = "https").
Proof.
  split; [reflexivity|].
  apply (isValidUrl_parses refURL refCompare bool refLogEvent
           "https://example.com?b=2&a=1").
  reflexivity.
Defined.

(* ================================================================== *)
(** ** Further facts: parameter comparator *)
(* ================================================================== *)

Lemma has_obj_read (o : JsObject) (k : string) :
  Js.hasOwnProperty o k = true -> exists v, Js.obj_read o k = Some v.
Proof.
  intros H. destruct (Js.obj_read o k) as [v|] eqn:E; [now exists v|].
  apply obj_read_None in E. congruence.
Qed.

Lemma forallb_false_exists {A : Type} (f : A -> bool) (l : list A) :
  forallb f l = false -> exists x, In x l /\ f x = false.
Proof.
  induction l as [|a l IH]; simpl; [discriminate|].
  intros H. apply andb_false_iff in H. destruct H as [H|H].
  - exists a. auto.
  - destruct (IH H) as [x [Hx Hf]]. exists x. auto.
Qed.

Lemma canCompare_true (allParams : list JsObject) :
  canCompare allParams = true <-> 2 <= List.length allParams.
Proof. unfold canCompare. rewrite Nat.ltb_lt. lia. Qed.

(** Membership in the two result sets, read off the loop. *)
Lemma missing_iff (allParams : list JsObject) (key : string) :
  In key (missing (getDifferentParamKeys allParams)) <->
  canCompare allParams = true /\ allSame allParams = false /\
  In key (collect_keys allParams) /\ keyExistsInAll allParams key = false.
Proof.
  unfold getDifferentParamKeys.
  destruct (canCompare allParams), (allSame allParams); simpl;
    try (split; [tauto | intros [? [? _]]; discriminate]).
  rewrite classify_all_missing. simpl. tauto.
Qed.

Lemma valueChanged_iff (allParams : list JsObject) (key : string) :
  In key (valueChanged (getDifferentParamKeys allParams)) <->
  canCompare allParams = true /\ allSame allParams = false /\
  In key (collect_keys allParams) /\ keyExistsInAll allParams key = true /\
  hasValueDiff allParams key = true.
Proof.
  unfold getDifferentParamKeys.
  destruct (canCompare allParams), (allSame allParams); simpl;
    try (split; [tauto | intros [? [? _]]; discriminate]).
  rewrite classify_all_valueChanged. simpl. tauto.
Qed.

(** X7.  The sets hold nothing else: a key of [missing] is a key of some map
    that another map lacks, and a key of [valueChanged] is in every map,
    with two maps holding different strings under it. *)
Theorem getDifferentParamKeys_sound (allParams : list JsObject) (key : string) :
  (In key (missing (getDifferentParamKeys allParams)) ->
   (exists p, In p allParams /\ Js.hasOwnProperty p key = true) /\
   (exists p, In p allParams /\ Js.hasOwnProperty p key = false)) /\
  (In key (valueChanged (getDifferentParamKeys allParams)) ->
   (forall p, In p allParams -> Js.hasOwnProperty p key = true) /\
   (exists p q v w, In p allParams /\ In q allParams /\
                    Js.obj_read p key = Some v /\ Js.obj_read q key = Some w /\
                    v <> w)).
Proof.
  split.
  - intros H. apply missing_iff in H. destruct H as [_ [_ [Hk Hm]]]. split.
    + apply collect_keys_In in Hk. destruct Hk as [p [Hp Hin]].
      exists p. split; [exact Hp | now apply hasOwnProperty_In].
    + now apply keyExistsInAll_false.
  - intros H. apply valueChanged_iff in H. destruct H as [Hc [_ [_ [Hall Hd]]]].
    apply canCompare_true in Hc.
    pose proof (proj1 (keyExistsInAll_true _ _) Hall) as Hhas.
    split; [exact Hhas|].
    apply hasValueDiff_true in Hd; [|exact Hc].
    destruct Hd as [p [q [Hp [Hq Hne]]]].
    destruct (has_obj_read p key (Hhas p Hp)) as [v Hv].
    destruct (has_obj_read q key (Hhas q Hq)) as [w Hw].
    exists p, q, v, w. repeat split; try assumption. congruence.
Qed.

Lemma no_difference_same_reads (allParams : list JsObject) :
  2 <= List.length allParams ->
  (forall k, In k (collect_keys allParams) ->
             keyExistsInAll allParams k = true /\ hasValueDiff allParams k = false) ->
  forall p q, In p allParams -> In q allParams ->
              forall k, Js.obj_read p k = Js.obj_read q k.
Proof.
  intros Hlen Hall p q Hp Hq k.
  destruct (Js.strict_eq (Js.obj_read p k) (Js.obj_read q k)) eqn:E;
    [now apply strict_eq_true in E|].
  assert (Hne : Js.obj_read p k <> Js.obj_read q k).
  { intros Heq. apply strict_eq_true in Heq. congruence. }
  assert (Hk : In k (collect_keys allParams)).
  { apply collect_keys_In.
    destruct (Js.obj_read p k) eqn:Ep.
    - exists p. split; [exact Hp|]. apply obj_read_In. congruence.
    - exists q. split; [exact Hq|]. apply obj_read_In. congruence. }
  destruct (Hall k Hk) as [_ Hd].
  assert (Hd' : hasValueDiff allParams k = true).
  { apply hasValueDiff_true; [exact Hlen|]. exists p, q. auto. }
  congruence.
Qed.

(** X8.  For at least two maps, [allSame] holds exactly when both result sets
    are empty: the banner and the highlighting never disagree. *)
Theorem allSame_iff_no_differences (allParams : list JsObject) :
  2 <= List.length allParams ->
  Forall wf_obj allParams ->
  (allSame allParams = true <->
   missing (getDifferentParamKeys allParams) = [] /\
   valueChanged (getDifferentParamKeys allParams) = []).
Proof.
  intros Hlen Hwf. split.
  - intros H. unfold getDifferentParamKeys. rewrite H, orb_true_r. now split.
  - intros [Hm Hv].
    destruct (allSame allParams) eqn:Hs; [reflexivity|].
    assert (Hc : canCompare allParams = true) by now apply canCompare_true.
    rewrite <- Hs. apply allSame_same_reads; [exact Hlen | exact Hwf |].
    apply no_difference_same_reads; [exact Hlen|].
    intros k Hk.
    destruct (keyExistsInAll allParams k) eqn:Ek.
    + split; [reflexivity|].
      destruct (hasValueDiff allParams k) eqn:Ed; [|reflexivity].
      assert (Hin : In k (valueChanged (getDifferentParamKeys allParams)))
        by (apply valueChanged_iff; auto).
      rewrite Hv in Hin. destruct Hin.
    + assert (Hin : In k (missing (getDifferentParamKeys allParams)))
        by (apply missing_iff; auto).
      rewrite Hm in Hin. destruct Hin.
Qed.

(** X9.  On objects, [paramsEqual] is an equivalence, although it only walks the
    keys of its first argument. *)
Theorem paramsEqual_equivalence (a b c : JsObject) :
  wf_obj a -> wf_obj b -> wf_obj c ->
  paramsEqual a a = true /\
  paramsEqual a b = paramsEqual b a /\
  (paramsEqual a b = true -> paramsEqual b c = true -> paramsEqual a c = true).
Proof.
  intros Ha Hb Hc.
  assert (R : forall x y, wf_obj x -> wf_obj y ->
                (paramsEqual x y = true <->
                 forall k, Js.obj_read x k = Js.obj_read y k)).
  { intros x y Hx Hy. rewrite paramsEqual_true.
    now apply matches_reference_same_reads. }
  split; [apply R; auto|]. split.
  - apply Bool.eq_iff_eq_true. rewrite !R by assumption.
    split; intros H k; symmetry; apply H.
  - rewrite !R by assumption. intros H1 H2 k. now rewrite H1.
Qed.

Lemma allSame_Permutation_aux (l l' : list JsObject) :
  Permutation l l' -> Forall wf_obj l -> allSame l = allSame l'.
Proof.
  intros HP Hwf.
  assert (Hwf' : Forall wf_obj l').
  { rewrite Forall_forall in *. intros x Hx. apply Hwf.
    eapply Permutation_in; [apply Permutation_sym; exact HP | exact Hx]. }
  pose proof (Permutation_length HP) as HL.
  destruct (Nat.le_gt_cases 2 (List.length l)) as [Hlen|Hlen].
  - apply Bool.eq_iff_eq_true.
    rewrite !allSame_same_reads by (assumption || lia).
    assert (Hin : forall x, In x l <-> In x l').
    { intros x. split; apply Permutation_in; auto using Permutation_sym. }
    split; intros H p q Hp Hq; apply H; now apply Hin.
  - unfold allSame, canCompare.
    assert (E : (1 <? List.length l)%nat = false) by (apply Nat.ltb_ge; lia).
    assert (E' : (1 <? List.length l')%nat = false) by (apply Nat.ltb_ge; lia).
    now rewrite E, E'.
Qed.

(** X10.  [allSame] takes the first map as reference, but its answer does not
    depend on the order of the maps. *)
Theorem allSame_order_independent (l l' : list JsObject) :
  Permutation l l' -> Forall wf_obj l -> allSame l = allSame l'.
Proof. exact (allSame_Permutation_aux l l'). Qed.

(** X11.  Reordering the maps changes neither which keys are in [missing] nor
    which are in [valueChanged]. *)
Theorem getDifferentParamKeys_order_independent (l l' : list JsObject) (key : string) :
  Permutation l l' -> Forall wf_obj l ->
  (In key (missing (getDifferentParamKeys l)) <->
   In key (missing (getDifferentParamKeys l'))) /\
  (In key (valueChanged (getDifferentParamKeys l)) <->
   In key (valueChanged (getDifferentParamKeys l'))).
Proof.
  intros HP Hwf.
  pose proof (allSame_Permutation_aux l l' HP Hwf) as Hs.
  pose proof (Permutation_length HP) as HL.
  assert (Hin : forall x, In x l <-> In x l').
  { intros x. split; apply Permutation_in; auto using Permutation_sym. }
  assert (Hc : canCompare l = canCompare l') by (unfold canCompare; now rewrite HL).
  assert (Hk : In key (collect_keys l) <-> In key (collect_keys l')).
  { rewrite !collect_keys_In. split; intros [p [Hp H]]; exists p; split; auto;
      now apply Hin. }
  assert (He : keyExistsInAll l key = keyExistsInAll l' key).
  { apply Bool.eq_iff_eq_true. rewrite !keyExistsInAll_true.
    split; intros H p Hp; apply H; now apply Hin. }
  split.
  - rewrite !missing_iff, Hc, Hs, Hk, He. tauto.
  - rewrite !valueChanged_iff, Hc, Hs, Hk, He.
    enough (canCompare l' = true ->
            (hasValueDiff l key = true <-> hasValueDiff l' key = true)) by tauto.
    intros Hcc. apply canCompare_true in Hcc.
    rewrite !hasValueDiff_true by lia.
    split; intros [p [q [Hp [Hq H]]]]; exists p, q; repeat split; auto; now apply Hin.
Qed.

Ltac wf_objs := repeat constructor; simpl; intuition discriminate.

Lemma getDifferentParamKeys_sound_witness :
  In "b" (missing (getDifferentParamKeys [[("a", "1"); ("b", "2")]; [("a", "1")]])) /\
  (exists p, In p [[("a", "1"); ("b", "2")]; [("a", "1")]] /\
             Js.hasOwnProperty p "b" = true) /\
  (exists p, In p [[("a", "1"); ("b", "2")]; [("a", "1")]] /\
             Js.hasOwnProperty p "b" = false).
Proof.
  assert (H : In "b" (missing (getDifferentParamKeys
                                 [[("a", "1"); ("b", "2")]; [("a", "1")]])))
    by (simpl; tauto).
  split; [exact H|].
  exact (proj1 (getDifferentParamKeys_sound _ "b") H).
Defined.

Lemma allSame_iff_no_differences_witness :
  2 <= List.length [[("a", "1")]; [("a", "2")]] /\
  Forall wf_obj [[("a", "1")]; [("a", "2")]] /\
  (allSame [[("a", "1")]; [("a", "2")]] = true <->
   missing (getDifferentParamKeys [[("a", "1")]; [("a", "2")]]) = [] /\
   valueChanged (getDifferentParamKeys [[("a", "1")]; [("a", "2")]]) = []).
Proof.
  assert (Hlen : 2 <= List.length [[("a", "1")]; [("a", "2")]]) by (simpl; lia).
  assert (Hwf : Forall wf_obj [[("a", "1")]; [("a", "2")]]) by wf_objs.
  split; [exact Hlen|]. split; [exact Hwf|].
  exact (allSame_iff_no_differences _ Hlen Hwf).
Defined.

Lemma paramsEqual_equivalence_witness :
  wf_obj [("a", "1"); ("b", "2")] /\ wf_obj [("b", "2"); ("a", "1")] /\
  paramsEqual [("a", "1"); ("b", "2")] [("b", "2"); ("a", "1")] =
  paramsEqual [("b", "2"); ("a", "1")] [("a", "1"); ("b", "2")].
Proof.
  assert (Ha : wf_obj [("a", "1"); ("b", "2")]) by wf_objs.
  assert (Hb : wf_obj [("b", "2"); ("a", "1")]) by wf_objs.
  split; [exact Ha|]. split; [exact Hb|].
  exact (proj1 (proj2 (paramsEqual_equivalence _ _ _ Ha Hb Ha))).
Defined.

Lemma allSame_order_independent_witness :
  Permutation [[("a", "1"); ("b", "2")]; [("a", "1")]]
              [[("a", "1")]; [("a", "1"); ("b", "2")]] /\
  Forall wf_obj [[("a", "1"); ("b", "2")]; [("a", "1")]] /\
  allSame [[("a", "1"); ("b", "2")]; [("a", "1")]] =
  allSame [[("a", "1")]; [("a", "1"); ("b", "2")]].
Proof.
  assert (HP : Permutation [[("a", "1"); ("b", "2")]; [("a", "1")]]
                           [[("a", "1")]; [("a", "1"); ("b", "2")]])
    by apply perm_swap.
  assert (Hwf : Forall wf_obj [[("a", "1"); ("b", "2")]; [("a", "1")]]) by wf_objs.
  split; [exact HP|]. split; [exact Hwf|].
  exact (allSame_order_independent _ _ HP Hwf).
Defined.

Lemma getDifferentParamKeys_order_independent_witness :
  Permutation [[("a", "1"); ("b", "2")]; [("a", "1")]]
              [[("a", "1")]; [("a", "1"); ("b", "2")]] /\
  Forall wf_obj [[("a", "1"); ("b", "2")]; [("a", "1")]] /\
  (In "b" (missing (getDifferentParamKeys [[("a", "1"); ("b", "2")]; [("a", "1")]])) <->
   In "b" (missing (getDifferentParamKeys [[("a", "1")]; [("a", "1"); ("b", "2")]]))).
Proof.
  assert (HP : Permutation [[("a", "1"); ("b", "2")]; [("a", "1")]]
                           [[("a", "1")]; [("a", "1"); ("b", "2")]])
    by apply perm_swap.
  assert (Hwf : Forall wf_obj [[("a", "1"); ("b", "2")]; [("a", "1")]]) by wf_objs.
  split; [exact HP|]. split; [exact Hwf|].
  exact (proj1 (getDifferentParamKeys_order_independent _ _ "b" HP Hwf)).
Defined.

(* ================================================================== *)
(** ** Further facts: state codec *)
(* ================================================================== *)

Lemma Number_toString_inj (n m : nat) :
  Js.Number_toString n = Js.Number_toString m -> n = m.
Proof.
  unfold Js.Number_toString. intros H.
  apply Unsigned.to_uint_inj.
  assert (E : NilEmpty.uint_of_string (NilEmpty.string_of_uint (Nat.to_uint n))
              = NilEmpty.uint_of_string (NilEmpty.string_of_uint (Nat.to_uint m)))
    by now rewrite H.
  rewrite !NilEmpty.usu in E. now injection E.
Qed.

Lemma url_key_inj (i j : nat) : url_key i = url_key j -> i = j.
Proof.
  unfold url_key. simpl. intros H. injection H as H.
  apply Number_toString_inj in H. lia.
Qed.

Lemma note_key_inj (i j : nat) : note_key i = note_key j -> i = j.
Proof.
  unfold note_key. simpl. intros H. injection H as H.
  apply Number_toString_inj in H. lia.
Qed.

Lemma url_key_not_note_key (i j : nat) : url_key i <> note_key j.
Proof. unfold url_key, note_key. simpl. discriminate. Qed.

(** [get] after [set], whether the name was there or not. *)
Lemma usp_get_set (p : URLSearchParams) (name value k : string) :
  Js.usp_get (Js.usp_set p name value) k =
  if String.eqb name k then Some value else Js.usp_get p k.
Proof.
  induction p as [|[n v] p IH]; simpl.
  - destruct (String.eqb name k); reflexivity.
  - destruct (String.eqb n name) eqn:E; simpl.
    + apply String.eqb_eq in E. subst n.
      destruct (String.eqb name k) eqn:E2; [reflexivity|].
      clear IH. induction p as [|[n' v'] p IH]; simpl; [reflexivity|].
      destruct (String.eqb n' name) eqn:E3; simpl.
      * apply String.eqb_eq in E3. subst n'. now rewrite E2.
      * destruct (String.eqb n' k); [reflexivity | exact IH].
    + rewrite IH. destruct (String.eqb n k) eqn:E2; [|reflexivity].
      apply String.eqb_eq in E2. subst n.
      rewrite String.eqb_sym in E. now rewrite E.
Qed.

Lemma usp_set_In (p : URLSearchParams) (name value : string) (e : string * string) :
  In e (Js.usp_set p name value) -> In e p \/ e = (name, value).
Proof.
  induction p as [|[n v] p IH]; simpl.
  - intros [<-|[]]. now right.
  - destruct (String.eqb n name) eqn:E; simpl.
    + apply String.eqb_eq in E. subst n.
      intros [<-|H]; [now right|]. apply filter_In in H. tauto.
    + intros [<-|H]; [now left; left|]. destruct (IH H); auto.
Qed.

Lemma sync_step_get (notes : list string) (p : URLSearchParams)
      (i : nat) (u k : string) :
  Js.usp_get (sync_step notes p (i, u)) k =
  match nth_error notes i with
  | Some (String c n) =>
      if String.eqb (note_key i) k then Some (String c n)
      else if nonEmpty u && String.eqb (url_key i) k then Some u
           else Js.usp_get p k
  | _ => if nonEmpty u && String.eqb (url_key i) k then Some u
         else Js.usp_get p k
  end.
Proof.
  unfold sync_step, nonEmpty. fold (url_key i) (note_key i).
  destruct (nth_error notes i) as [[|c n]|]; simpl;
    destruct u as [|c' u]; simpl; rewrite ?usp_get_set; reflexivity.
Qed.

Lemma syncQuery_from_get_url (notes l : list string) (start i : nat)
      (p : URLSearchParams) :
  Js.usp_get (fold_left (sync_step notes) (combine (seq start (List.length l)) l) p)
             (url_key i) =
  match (if (start <=? i)%nat then nth_error l (i - start) else None) with
  | Some (String c s) => Some (String c s)
  | _ => Js.usp_get p (url_key i)
  end.
Proof.
  revert start p. induction l as [|u l IH]; intros start p.
  - simpl. destruct (start <=? i)%nat; [destruct (i - start)|]; reflexivity.
  - cbn [List.length seq combine fold_left]. rewrite IH, sync_step_get.
    assert (Hn : String.eqb (note_key start) (url_key i) = false).
    { apply String.eqb_neq. intros E. symmetry in E.
      now apply url_key_not_note_key in E. }
    destruct (Nat.lt_trichotomy i start) as [Hlt|[->|Hgt]].
    + assert (E1 : (start <=? i)%nat = false) by (apply Nat.leb_gt; lia).
      assert (E2 : (S start <=? i)%nat = false) by (apply Nat.leb_gt; lia).
      assert (E3 : String.eqb (url_key start) (url_key i) = false).
      { apply String.eqb_neq. intros E. apply url_key_inj in E. lia. }
      rewrite E1, E2, E3, andb_false_r.
      destruct (nth_error notes start) as [[|? ?]|]; rewrite ?Hn; auto.
    + assert (E1 : (start <=? start)%nat = true) by (apply Nat.leb_le; lia).
      assert (E2 : (S start <=? start)%nat = false) by (apply Nat.leb_gt; lia).
      rewrite E1, E2, Nat.sub_diag, String.eqb_refl, andb_true_r. simpl.
      unfold nonEmpty.
      destruct (nth_error notes start) as [[|? ?]|]; rewrite ?Hn; auto;
        destruct u; reflexivity.
    + assert (E1 : (start <=? i)%nat = true) by (apply Nat.leb_le; lia).
      assert (E2 : (S start <=? i)%nat = true) by (apply Nat.leb_le; lia).
      assert (E3 : String.eqb (url_key start) (url_key i) = false).
      { apply String.eqb_neq. intros E. apply url_key_inj in E. lia. }
      rewrite E1, E2, E3, andb_false_r.
      replace (i - start) with (S (i - S start)) by lia. simpl.
      destruct (nth_error l (i - S start)) as [[|? ?]|]; try reflexivity;
        destruct (nth_error notes start) as [[|? ?]|]; rewrite ?Hn; auto.
Qed.

Lemma syncQuery_from_get_note (notes l : list string) (start i : nat)
      (p : URLSearchParams) :
  Js.usp_get (fold_left (sync_step notes) (combine (seq start (List.length l)) l) p)
             (note_key i) =
  match (if (start <=? i)%nat then nth_error l (i - start) else None),
        nth_error notes i with
  | Some _, Some (String c n) => Some (String c n)
  | _, _ => Js.usp_get p (note_key i)
  end.
Proof.
  revert start p. induction l as [|u l IH]; intros start p.
  - simpl. destruct (start <=? i)%nat; [destruct (i - start)|]; reflexivity.
  - cbn [List.length seq combine fold_left]. rewrite IH, sync_step_get.
    assert (Hu : String.eqb (url_key start) (note_key i) = false).
    { apply String.eqb_neq. apply url_key_not_note_key. }
    rewrite Hu, andb_false_r.
    destruct (Nat.lt_trichotomy i start) as [Hlt|[->|Hgt]].
    + assert (E1 : (start <=? i)%nat = false) by (apply Nat.leb_gt; lia).
      assert (E2 : (S start <=? i)%nat = false) by (apply Nat.leb_gt; lia).
      assert (E3 : String.eqb (note_key start) (note_key i) = false).
      { apply String.eqb_neq. intros E. apply note_key_inj in E. lia. }
      rewrite E1, E2, E3.
      destruct (nth_error notes start) as [[|? ?]|]; reflexivity.
    + assert (E1 : (start <=? start)%nat = true) by (apply Nat.leb_le; lia).
      assert (E2 : (S start <=? start)%nat = false) by (apply Nat.leb_gt; lia).
      rewrite E1, E2, Nat.sub_diag, String.eqb_refl. simpl.
      destruct (nth_error notes start) as [[|? ?]|]; reflexivity.
    + assert (E1 : (start <=? i)%nat = true) by (apply Nat.leb_le; lia).
      assert (E2 : (S start <=? i)%nat = true) by (apply Nat.leb_le; lia).
      assert (E3 : String.eqb (note_key start) (note_key i) = false).
      { apply String.eqb_neq. intros E. apply note_key_inj in E. lia. }
      rewrite E1, E2, E3.
      replace (i - start) with (S (i - S start)) by lia. simpl.
      destruct (nth_error l (i - S start)), (nth_error notes i) as [[|? ?]|];
        try reflexivity;
        destruct (nth_error notes start) as [[|? ?]|]; reflexivity.
Qed.

(** Lookup in the parameters written for strings that the conversion
    leaves as they are. *)
Lemma syncQuery_lookup (urls notes : list string) (i : nat) :
  Js.usp_get (syncQuery urls notes) (url_key i) =
    match nth_error urls i with
    | Some (String c s) => Some (String c s)
    | _ => None
    end /\
  Js.usp_get (syncQuery urls notes) (note_key i) =
    match nth_error urls i, nth_error notes i with
    | Some _, Some (String c n) => Some (String c n)
    | _, _ => None
    end.
Proof.
  unfold syncQuery. rewrite syncQuery_from_get_url, syncQuery_from_get_note.
  simpl. rewrite Nat.sub_0_r. split; reflexivity.
Qed.

Lemma sync_step_In (notes : list string) (p : URLSearchParams) (i : nat) (u : string)
      (e : string * string) :
  In e (sync_step notes p (i, u)) ->
  In e p \/
  (e = (url_key i, u) /\ nonEmpty u = true) \/
  (e = (note_key i, snd e) /\ nth_error notes i = Some (snd e) /\
   nonEmpty (snd e) = true).
Proof.
  unfold sync_step, nonEmpty. fold (url_key i) (note_key i).
  destruct (nth_error notes i) as [[|c n]|]; simpl;
    destruct u as [|c' u]; simpl; intros H;
    repeat (apply usp_set_In in H; destruct H as [H|H]); subst; simpl; auto.
Qed.

Lemma syncQuery_from_In (notes l : list string) (start : nat) (p : URLSearchParams)
      (e : string * string) :
  In e (fold_left (sync_step notes) (combine (seq start (List.length l)) l) p) ->
  In e p \/
  (nonEmpty (snd e) = true /\
   exists j, j < List.length l /\
     ((fst e = url_key (start + j) /\ nth_error l j = Some (snd e)) \/
      (fst e = note_key (start + j) /\ nth_error notes (start + j) = Some (snd e)))).
Proof.
  revert start p. induction l as [|u l IH]; intros start p; simpl.
  - auto.
  - intros H. apply IH in H. destruct H as [H|[Hne [j [Hj H]]]].
    + apply sync_step_In in H. destruct H as [H|[[-> Hu]|[He [Hn Hne]]]].
      * now left.
      * right. split; [exact Hu|]. exists 0. rewrite Nat.add_0_r.
        split; [lia|]. left. now split.
      * right. split; [exact Hne|]. exists 0. rewrite Nat.add_0_r.
        split; [lia|]. right. split; [now rewrite He | exact Hn].
    + right. split; [exact Hne|]. exists (S j).
      replace (start + S j) with (S start + j) by lia.
      split; [lia|]. exact H.
Qed.

(** The entries of the parameters written for strings that the conversion
    leaves as they are. *)
Lemma syncQuery_entries (urls notes : list string) (e : string * string) :
  In e (syncQuery urls notes) ->
  nonEmpty (snd e) = true /\
  exists i, i < List.length urls /\
    ((fst e = url_key i /\ nth_error urls i = Some (snd e)) \/
     (fst e = note_key i /\ nth_error notes i = Some (snd e))).
Proof.
  unfold syncQuery. intros H. apply syncQuery_from_In in H.
  destruct H as [[]|H]. exact H.
Qed.

(** X14.  The rows that [decode] gives survive a write to the address bar and a
    reload unchanged. *)
Theorem decode_stable (search : URLSearchParams) :
  decode (encode (decode search)) = decode search.
Proof.
  unfold decode, getInitialUrls, getInitialNotes.
  generalize (Js.usp_get search "url1"), (Js.usp_get search "url2"),
             (Js.usp_get search "url3"), (Js.usp_get search "note1"),
             (Js.usp_get search "note2"), (Js.usp_get search "note3").
  intros u1 u2 u3 n1 n2 n3.
  destruct u1 as [[|? ?]|], u2 as [[|? ?]|], u3 as [[|? ?]|],
           n1 as [[|? ?]|], n2 as [[|? ?]|], n3 as [[|? ?]|]; reflexivity.
Qed.

Lemma syncNotes_nth (prev : list string) (n i : nat) :
  i < n -> nth i (syncNotes prev n) "" = nth i prev "".
Proof.
  intros Hi. unfold syncNotes.
  destruct (List.length prev =? n)%nat eqn:E; [reflexivity|].
  destruct (List.length prev <? n)%nat eqn:L.
  - destruct (Nat.lt_ge_cases i (List.length prev)) as [H|H].
    + now rewrite app_nth1.
    + rewrite app_nth2 by exact H. rewrite (nth_overflow prev) by exact H.
      apply nth_repeat.
  - rewrite nth_firstn. apply Nat.ltb_lt in Hi. now rewrite Hi.
Qed.

Lemma nth_error_nonEmpty (l : list string) (i : nat) :
  match nth_error l i with
  | Some (String c s) => Some (String c s)
  | _ => None
  end =
  match nth i l "" with
  | String c s => Some (String c s)
  | EmptyString => None
  end.
Proof.
  revert i. induction l as [|x l IH]; intros [|i]; simpl; try reflexivity.
  apply IH.
Qed.

Lemma sync_step_notes_ext (notes1 notes2 : list string) (p : URLSearchParams)
      (i : nat) (u : string) :
  nth i notes1 "" = nth i notes2 "" ->
  sync_step notes1 p (i, u) = sync_step notes2 p (i, u).
Proof.
  intros H.
  pose proof (nth_error_nonEmpty notes1 i) as E1.
  pose proof (nth_error_nonEmpty notes2 i) as E2.
  rewrite H in E1. rewrite <- E2 in E1. clear E2 H.
  unfold sync_step.
  destruct (nth_error notes1 i) as [[|? ?]|], (nth_error notes2 i) as [[|? ?]|];
    simpl; try reflexivity; try discriminate.
  now injection E1 as -> ->.
Qed.

Lemma fold_left_ext_in {A B : Type} (f g : A -> B -> A) (l : list B) (a : A) :
  (forall x b, In b l -> f x b = g x b) -> fold_left f l a = fold_left g l a.
Proof.
  revert a. induction l as [|b l IH]; intros a H; simpl; [reflexivity|].
  rewrite H by now left. apply IH. intros x b' Hb. apply H. now right.
Qed.

Lemma in_indexed {A : Type} (l : list A) (i : nat) (x : A) :
  In (i, x) (combine (seq 0 (List.length l)) l) -> i < List.length l.
Proof.
  intros H. apply in_combine_l in H. apply in_seq in H. lia.
Qed.

(** The rows and the address bar only look at the notes of existing rows,
    and take a missing note for an empty one. *)
Lemma rows_notes_ext (urls notes1 notes2 : list string) :
  (forall i, i < List.length urls -> nth i notes1 "" = nth i notes2 "") ->
  rows urls notes1 = rows urls notes2 /\
  syncQuery urls notes1 = syncQuery urls notes2.
Proof.
  intros H. split.
  - unfold rows. apply map_ext_in. intros [i u] Hin.
    apply in_indexed in Hin. simpl. now rewrite H.
  - unfold syncQuery. apply fold_left_ext_in. intros p [i u] Hin.
    apply in_indexed in Hin. apply sync_step_notes_ext. now apply H.
Qed.

(** X17.  Padding or cutting the notes to the number of urls changes neither the
    rows shown nor the parameters written to the address bar. *)
Theorem syncNotesEffect_unobservable (st : AppState) :
  state_rows (syncNotesEffect st) = state_rows st /\
  state_query (syncNotesEffect st) = state_query st.
Proof.
  unfold state_rows, state_query, syncNotesEffect. simpl.
  apply rows_notes_ext. intros i Hi. now apply syncNotes_nth.
Qed.

(** X16.  What [decode] never gives: an empty url other than the single default
    one, or a non-empty note after an empty one. *)
Theorem decode_shape (search : URLSearchParams) :
  (map url (decode search) = [""] \/
   Forall (fun u => nonEmpty u = true) (map url (decode search))) /\
  exists k, map note (decode search) = note_values (decode search) ++ repeat "" k.
Proof.
  split.
  - rewrite decode_urls. unfold getInitialUrls.
    destruct (filter_Boolean _) as [|u us] eqn:E; simpl; [now left|].
    right. rewrite <- E. apply filter_Boolean_nonEmpty.
  - unfold note_values. rewrite decode_notes.
    set (N := getInitialNotes search). set (n := List.length (getInitialUrls search)).
    assert (HN : Forall (fun s => nonEmpty s = true) N) by apply filter_Boolean_nonEmpty.
    rewrite (syncNotes_values N n HN). unfold syncNotes.
    destruct (List.length N =? n)%nat eqn:E.
    + apply Nat.eqb_eq in E. exists 0. simpl.
      rewrite app_nil_r, <- E. now rewrite firstn_all.
    + destruct (List.length N <? n)%nat eqn:L.
      * apply Nat.ltb_lt in L. exists (n - List.length N).
        now rewrite firstn_all2 by lia.
      * exists 0. simpl. now rewrite app_nil_r.
Qed.

(* ================================================================== *)
(** ** Further facts: the editing state *)
(* ================================================================== *)

Lemma nth_nth_error {A : Type} (l : list A) (i : nat) (d : A) :
  nth i l d = match nth_error l i with Some x => x | None => d end.
Proof.
  revert i. induction l as [|x l IH]; intros [|i]; simpl; auto.
Qed.

Lemma without_nil {A : Type} (idx : nat) : without idx (@nil A) = [].
Proof. unfold without. now rewrite firstn_nil, skipn_nil. Qed.

Lemma nth_error_without {A : Type} (idx : nat) (l : list A) (i : nat) :
  nth_error (without idx l) i =
  if (i <? idx)%nat then nth_error l i else nth_error l (S i).
Proof.
  revert idx i. induction l as [|x l IH]; intros idx i.
  - rewrite without_nil. destruct (i <? idx)%nat, i; reflexivity.
  - destruct idx as [|idx].
    + reflexivity.
    + change (without (S idx) (x :: l)) with (x :: without idx l).
      destruct i as [|i]; [reflexivity|]. simpl nth_error. rewrite IH.
      reflexivity.
Qed.

Lemma nth_without (idx : nat) (l : list string) (i : nat) :
  nth i (without idx l) "" =
  if (i <? idx)%nat then nth i l "" else nth (S i) l "".
Proof.
  rewrite (nth_nth_error (without idx l)), nth_error_without.
  destruct (i <? idx)%nat; symmetry; apply nth_nth_error.
Qed.

Lemma without_length {A : Type} (idx : nat) (l : list A) :
  List.length (without idx l) =
  if (idx <? List.length l)%nat then List.length l - 1 else List.length l.
Proof.
  unfold without. rewrite length_app, length_firstn, length_skipn.
  destruct (idx <? List.length l)%nat eqn:E;
    [apply Nat.ltb_lt in E | apply Nat.ltb_ge in E]; lia.
Qed.

Lemma filteri_keep_all {A : Type} (l : list A) (start k : nat) :
  k < start ->
  map snd (filter (fun ix : nat * A => negb (fst ix =? k)%nat)
                  (combine (seq start (List.length l)) l)) = l.
Proof.
  revert start. induction l as [|x l IH]; intros start Hk; simpl; [reflexivity|].
  assert (E : (start =? k)%nat = false) by (apply Nat.eqb_neq; lia).
  rewrite E. simpl. f_equal. apply IH. lia.
Qed.

Lemma filteri_from_without {A : Type} (l : list A) (start idx : nat) :
  map snd (filter (fun ix : nat * A => negb (fst ix =? start + idx)%nat)
                  (combine (seq start (List.length l)) l)) = without idx l.
Proof.
  revert start idx. induction l as [|x l IH]; intros start idx.
  - now rewrite without_nil.
  - cbn [List.length seq combine filter fst].
    destruct idx as [|idx].
    + rewrite Nat.add_0_r, Nat.eqb_refl. simpl negb. cbv iota.
      rewrite filteri_keep_all by lia. reflexivity.
    + assert (E : (start =? start + S idx)%nat = false) by (apply Nat.eqb_neq; lia).
      rewrite E. simpl negb. cbv iota. cbn [map snd].
      replace (start + S idx) with (S start + idx) by lia.
      rewrite IH. reflexivity.
Qed.

(** [prev.filter((_, i) => i !== idx)] takes the element at [idx] out, and
    nothing when there is none. *)
Lemma Array_filteri_without {A : Type} (idx : nat) (l : list A) :
  Js.Array_filteri (fun _ i => negb (i =? idx)%nat) l = without idx l.
Proof. exact (filteri_from_without l 0 idx). Qed.

Lemma mapi_from_nth_error {A B : Type} (f : A -> nat -> B) (l : list A)
      (start i : nat) :
  nth_error (map (fun ix : nat * A => f (snd ix) (fst ix))
                 (combine (seq start (List.length l)) l)) i =
  option_map (fun x => f x (start + i)) (nth_error l i).
Proof.
  revert start i. induction l as [|x l IH]; intros start [|i]; simpl; try reflexivity.
  - now rewrite Nat.add_0_r.
  - rewrite IH. now replace (S start + i) with (start + S i) by lia.
Qed.

Lemma Array_mapi_nth_error {A B : Type} (f : A -> nat -> B) (l : list A) (i : nat) :
  nth_error (Js.Array_mapi f l) i = option_map (fun x => f x i) (nth_error l i).
Proof. exact (mapi_from_nth_error f l 0 i). Qed.

Lemma Array_mapi_length {A B : Type} (f : A -> nat -> B) (l : list A) :
  List.length (Js.Array_mapi f l) = List.length l.
Proof.
  unfold Js.Array_mapi. rewrite length_map, length_combine, length_seq.
  apply Nat.min_id.
Qed.

Lemma rows_nth_error (urls notes : list string) (i : nat) :
  nth_error (rows urls notes) i =
  option_map (fun u => {| url := u; note := nth i notes "" |}) (nth_error urls i).
Proof.
  exact (mapi_from_nth_error (fun u j => {| url := u; note := nth j notes "" |})
                             urls 0 i).
Qed.

Lemma getInitialUrls_length (search : URLSearchParams) :
  1 <= List.length (getInitialUrls search) <= 3.
Proof.
  unfold getInitialUrls.
  destruct (Js.usp_get search "url1") as [[|? ?]|];
    destruct (Js.usp_get search "url2") as [[|? ?]|];
    destruct (Js.usp_get search "url3") as [[|? ?]|]; simpl; lia.
Qed.

Lemma syncNotesEffect_well_sized (st : AppState) :
  1 <= List.length (urls st) <= 3 -> well_sized (syncNotesEffect st).
Proof.
  intros H. split; [exact H|]. simpl. apply syncNotes_length.
Qed.

Lemma syncNotesEffect_id (st : AppState) :
  List.length (notes st) = List.length (urls st) -> syncNotesEffect st = st.
Proof.
  intros H. unfold syncNotesEffect, syncNotes.
  apply Nat.eqb_eq in H. rewrite H. now destruct st.
Qed.

(** The handlers alone keep the size invariant: an edit keeps both lengths,
    an addition extends both arrays, a removal filters both by the same
    index. *)
Lemma handler_well_sized (e : Event) (st : AppState) :
  well_sized st -> well_sized (handler e st).
Proof.
  intros [Hu Hn]. unfold well_sized.
  destruct e as [idx v|idx v| |idx]; simpl.
  - rewrite Array_mapi_length. auto.
  - rewrite Array_mapi_length. auto.
  - unfold handleAdd. destruct (List.length (urls st) <? 3)%nat eqn:E; [|auto].
    apply Nat.ltb_lt in E. simpl. rewrite !length_app. simpl. lia.
  - unfold handleRemove. destruct (1 <? List.length (urls st))%nat eqn:E; [|auto].
    apply Nat.ltb_lt in E. simpl. rewrite !Array_filteri_without, !without_length.
    rewrite Hn. destruct (idx <? List.length (urls st))%nat; lia.
Qed.

(** On a state of the right size the effect finds nothing to do, whether
    React runs it or not: a step is the handler. *)
Lemma handle_handler (e : Event) (st : AppState) :
  well_sized st -> handle e st = handler e st.
Proof.
  intros H. unfold handle.
  destruct (List.length (urls (handler e st)) =? List.length (urls st))%nat;
    [reflexivity|].
  apply syncNotesEffect_id. now apply handler_well_sized.
Qed.

Lemma run_handlers (events : list Event) (st : AppState) :
  well_sized st ->
  well_sized (fold_left (fun s e => handler e s) events st) /\
  run events st = fold_left (fun s e => handler e s) events st.
Proof.
  unfold run. revert st.
  induction events as [|e events IH]; intros st H; simpl; [now split|].
  rewrite (handle_handler e st H). apply IH. now apply handler_well_sized.
Qed.

(** X18.  From any address bar and after any sequence of edits, additions
    and removals, the state has one to three urls and as many notes; and
    this is the handlers' own doing: after the start-up, the effect that
    pads or cuts the notes never has anything to change, the run is the run
    of the handlers alone. *)
Theorem run_well_sized (search : URLSearchParams) (events : list Event) :
  well_sized (run events (initialState search)) /\
  run events (initialState search) =
  fold_left (fun s e => handler e s) events (initialState search).
Proof.
  assert (H0 : well_sized (initialState search)).
  { apply syncNotesEffect_well_sized. apply getInitialUrls_length. }
  destruct (run_handlers events (initialState search) H0) as [Hw Hr].
  split; [now rewrite Hr | exact Hr].
Qed.

(** X19.  Removing row [idx] from a state with more than one row takes exactly
    that row out: every other row keeps its url together with its note. *)
Theorem handleRemove_rows (idx : nat) (st : AppState) :
  1 < List.length (urls st) ->
  state_rows (handleRemove idx st) = without idx (state_rows st).
Proof.
  intros H. unfold handleRemove, state_rows.
  apply Nat.ltb_lt in H. rewrite H. simpl.
  rewrite !Array_filteri_without.
  apply nth_error_ext. intros i.
  rewrite rows_nth_error, !nth_error_without, nth_without.
  destruct (i <? idx)%nat; now rewrite rows_nth_error.
Qed.

(** With a single row left, removal does nothing. *)
Lemma handleRemove_last_row (idx : nat) (st : AppState) :
  List.length (urls st) <= 1 -> handleRemove idx st = st.
Proof.
  intros H. unfold handleRemove. apply Nat.ltb_ge in H. now rewrite H.
Qed.

(** X20.  Editing the url of row [idx] changes that url and nothing else; editing
    its note, in a state with as many notes as urls, changes that note and
    nothing else.  An index beyond the rows changes nothing. *)
Theorem handleChange_rows (idx : nat) (value : string) (st : AppState) (i : nat) :
  nth_error (state_rows (handleChange idx value st)) i =
    option_map (fun r => if (i =? idx)%nat
                         then {| url := value; note := note r |} else r)
               (nth_error (state_rows st) i) /\
  (List.length (notes st) = List.length (urls st) ->
   nth_error (state_rows (handleNoteChange idx value st)) i =
     option_map (fun r => if (i =? idx)%nat
                          then {| url := url r; note := value |} else r)
                (nth_error (state_rows st) i)).
Proof.
  unfold state_rows, handleChange, handleNoteChange. simpl. split.
  - rewrite !rows_nth_error, Array_mapi_nth_error.
    destruct (nth_error (urls st) i); simpl; [|reflexivity].
    destruct (i =? idx)%nat; reflexivity.
  - intros Hlen. rewrite !rows_nth_error.
    destruct (nth_error (urls st) i) as [u|] eqn:E; simpl; [|reflexivity].
    assert (Hi : i < List.length (notes st)).
    { rewrite Hlen. apply nth_error_Some. congruence. }
    rewrite (nth_nth_error (Js.Array_mapi _ _)), Array_mapi_nth_error.
    rewrite (nth_nth_error (notes st)).
    destruct (nth_error (notes st) i) eqn:En; simpl.
    + destruct (i =? idx)%nat; reflexivity.
    + apply nth_error_None in En. lia.
Qed.

Lemma handleChange_rows_witness :
  List.length (notes {| urls := ["a"; "b"]; notes := ["x"; "y"] |}) =
  List.length (urls {| urls := ["a"; "b"]; notes := ["x"; "y"] |}) /\
  nth_error (state_rows (handleNoteChange 1 "z"
                           {| urls := ["a"; "b"]; notes := ["x"; "y"] |})) 1 =
  Some {| url := "b"; note := "z" |}.
Proof.
  split; [reflexivity|].
  exact (proj2 (handleChange_rows 1 "z" {| urls := ["a"; "b"]; notes := ["x"; "y"] |} 1)
               eq_refl).
Defined.

Lemma handleRemove_rows_witness :
  1 < List.length (urls {| urls := ["a"; "b"; "c"]; notes := ["x"; "y"; "z"] |}) /\
  state_rows (handleRemove 1 {| urls := ["a"; "b"; "c"]; notes := ["x"; "y"; "z"] |}) =
  [{| url := "a"; note := "x" |}; {| url := "c"; note := "z" |}].
Proof.
  assert (H : 1 < List.length (urls {| urls := ["a"; "b"; "c"];
                                       notes := ["x"; "y"; "z"] |}))
    by (simpl; lia).
  split; [exact H|].
  exact (handleRemove_rows 1 {| urls := ["a"; "b"; "c"]; notes := ["x"; "y"; "z"] |} H).
Defined.

Lemma indexed_snoc {A : Type} (l : list A) (x : A) (start : nat) :
  combine (seq start (List.length (l ++ [x]))) (l ++ [x]) =
  combine (seq start (List.length l)) l ++ [(start + List.length l, x)].
Proof.
  revert start. induction l as [|y l IH]; intros start; simpl.
  - now rewrite Nat.add_0_r.
  - rewrite IH. now replace (S start + List.length l) with (start + S (List.length l)) by lia.
Qed.

Lemma nth_app_empty (l : list string) (i : nat) :
  nth i (l ++ [""]) "" = nth i l "".
Proof.
  destruct (Nat.lt_ge_cases i (List.length l)) as [H|H].
  - now rewrite app_nth1.
  - rewrite app_nth2 by exact H. rewrite (nth_overflow l) by exact H.
    destruct (i - List.length l) as [|[|k]]; reflexivity.
Qed.

(** X21.  Adding a row to a state with fewer than three rows and as many notes as
    urls appends one empty row, and leaves the parameters of the address
    bar as they are. *)
Theorem handleAdd_appends_empty_row (st : AppState) :
  List.length (urls st) < 3 ->
  List.length (notes st) = List.length (urls st) ->
  state_rows (handleAdd st) = state_rows st ++ [{| url := ""; note := "" |}] /\
  state_query (handleAdd st) = state_query st.
Proof.
  intros Hlt Hlen. unfold handleAdd, state_rows, state_query.
  apply Nat.ltb_lt in Hlt. rewrite Hlt. simpl.
  destruct (rows_notes_ext (urls st ++ [""]) (notes st ++ [""]) (notes st)
              (fun i _ => nth_app_empty (notes st) i)) as [Er Eq].
  rewrite Er, Eq. unfold rows, syncQuery.
  rewrite indexed_snoc, map_app, fold_left_app. simpl. split.
  - rewrite (nth_overflow (notes st)) by lia. reflexivity.
  - assert (En : nth_error (notes st) (List.length (urls st)) = None)
      by (apply nth_error_None; lia).
    now rewrite En.
Qed.

Lemma handleAdd_appends_empty_row_witness :
  List.length (urls {| urls := ["a"]; notes := ["x"] |}) < 3 /\
  List.length (notes {| urls := ["a"]; notes := ["x"] |}) =
  List.length (urls {| urls := ["a"]; notes := ["x"] |}) /\
  state_rows (handleAdd {| urls := ["a"]; notes := ["x"] |}) =
  [{| url := "a"; note := "x" |}; {| url := ""; note := "" |}].
Proof.
  assert (H : List.length (urls {| urls := ["a"]; notes := ["x"] |}) < 3)
    by (simpl; lia).
  split; [exact H|]. split; [reflexivity|].
  exact (proj1 (handleAdd_appends_empty_row {| urls := ["a"]; notes := ["x"] |}
                  H eq_refl)).
Defined.

Lemma without_snoc {A : Type} (l : list A) (x : A) :
  without (List.length l) (l ++ [x]) = l.
Proof.
  unfold without.
  rewrite (skipn_all2 (n := S (List.length l))) by (rewrite length_app; simpl; lia).
  rewrite firstn_app, firstn_all, Nat.sub_diag. simpl.
  now rewrite !app_nil_r.
Qed.

(** X22.  Adding a row and removing it again gives the state back. *)
Theorem handleRemove_handleAdd (st : AppState) :
  1 <= List.length (urls st) < 3 ->
  List.length (notes st) = List.length (urls st) ->
  handleRemove (List.length (urls st)) (handleAdd st) = st.
Proof.
  intros [H1 H3] Hlen. unfold handleAdd.
  apply Nat.ltb_lt in H3. rewrite H3. unfold handleRemove. simpl.
  assert (E : (1 <? List.length (urls st ++ [""]))%nat = true).
  { apply Nat.ltb_lt. rewrite length_app. simpl. lia. }
  rewrite E, !Array_filteri_without, without_snoc.
  rewrite <- Hlen, without_snoc. now destruct st.
Qed.

Lemma handleRemove_handleAdd_witness :
  1 <= List.length (urls {| urls := ["a"; "b"]; notes := ["x"; ""] |}) < 3 /\
  List.length (notes {| urls := ["a"; "b"]; notes := ["x"; ""] |}) =
  List.length (urls {| urls := ["a"; "b"]; notes := ["x"; ""] |}) /\
  handleRemove 2 (handleAdd {| urls := ["a"; "b"]; notes := ["x"; ""] |}) =
  {| urls := ["a"; "b"]; notes := ["x"; ""] |}.
Proof.
  assert (H : 1 <= List.length (urls {| urls := ["a"; "b"]; notes := ["x"; ""] |}) < 3)
    by (simpl; lia).
  split; [exact H|]. split; [reflexivity|].
  exact (handleRemove_handleAdd {| urls := ["a"; "b"]; notes := ["x"; ""] |} H eq_refl).
Defined.

(* ================================================================== *)
(** ** Further facts: decomposer and comparator together *)
(* ================================================================== *)

Section ParseAndCompare.
Variable URL : string -> completion Js.URLObject.
Variable localeCompare : string -> string -> Z.
Variable Analytics : Type.
Variable logEvent : Analytics -> string -> string -> completion unit.
Hypothesis localeCompare_refl : forall a, localeCompare a a = 0%Z.

Lemma build_params_same_reads (e1 e2 : list (string * string)) :
  (forall k, Js.obj_read (build_params localeCompare e1) k =
             Js.obj_read (build_params localeCompare e2) k) <->
  (forall k, k <> "__proto__" -> last_value e1 k = last_value e2 k).
Proof.
  split.
  - intros H k Hk.
    rewrite <- !(build_params_last_wins localeCompare localeCompare_refl) by exact Hk.
    apply H.
  - intros H k. destruct (String.eqb k "__proto__") eqn:E.
    + apply String.eqb_eq in E. subst k.
      assert (N : forall e, Js.obj_read (build_params localeCompare e) "__proto__" = None).
      { intros e. destruct (Js.obj_read _ _) eqn:R; [|reflexivity].
        assert (Hin : In "__proto__" (Js.Object_keys (build_params localeCompare e)))
          by (apply obj_read_In; congruence).
        apply build_params_keys in Hin. tauto. }
      now rewrite !N.
    + apply String.eqb_neq in E.
      rewrite !(build_params_last_wins localeCompare localeCompare_refl) by exact E.
      now apply H.
Qed.

(** X6.  Two accepted URLs are reported as having the same parameters exactly
    when their query strings give every key other than ["__proto__"] the
    same last value; the order of the parameters plays no part. *)
Theorem parseUrl_same_parameters (url1 url2 : string) (u1 u2 : Js.URLObject) :
  URL url1 = Normal u1 ->
  URL url2 = Normal u2 ->
  exists p1 p2,
    parseUrl URL localeCompare Analytics logEvent None url1 = Normal (Some p1) /\
    parseUrl URL localeCompare Analytics logEvent None url2 = Normal (Some p2) /\
    (allSame (allParams_of [Some p1; Some p2]) = true <->
     forall k, k <> "__proto__" ->
               last_value (Js.searchParams u1) k = last_value (Js.searchParams u2) k).
Proof.
  intros H1 H2. eexists. eexists.
  split; [apply (parseUrl_accepts URL localeCompare Analytics logEvent _ _ H1)|].
  split; [apply (parseUrl_accepts URL localeCompare Analytics logEvent _ _ H2)|].
  simpl.
  rewrite allSame_same_reads;
    [| simpl; lia | repeat constructor; apply build_params_wf].
  rewrite <- build_params_same_reads. split.
  - intros H. apply H; simpl; auto.
  - intros H p q [<-|[<-|[]]] [<-|[<-|[]]] k; auto.
Qed.
End ParseAndCompare.

Lemma parseUrl_same_parameters_witness :
  refURL_more "https://example.com?b=2&a=1" =
    Normal (example_origin [("b", "2"); ("a", "1")]) /\
  refURL_more "https://example.com?a=1&b=2" =
    Normal (example_origin [("a", "1"); ("b", "2")]) /\
  exists p1 p2,
    parseUrl refURL_more refCompare bool refLogEvent None "https://example.com?b=2&a=1"
    = Normal (Some p1) /\
    parseUrl refURL_more refCompare bool refLogEvent None "https://example.com?a=1&b=2"
    = Normal (Some p2) /\
    (allSame (allParams_of [Some p1; Some p2]) = true <->
     forall k, k <> "__proto__" ->
               last_value (Js.searchParams (example_origin [("b", "2"); ("a", "1")])) k =
               last_value (Js.searchParams (example_origin [("a", "1"); ("b", "2")])) k).
Proof.
  split; [reflexivity|]. split; [reflexivity|].
  apply (parseUrl_same_parameters refURL_more refCompare bool refLogEvent refCompare_refl
           "https://example.com?b=2&a=1" "https://example.com?a=1&b=2"
           (example_origin [("b", "2"); ("a", "1")])
           (example_origin [("a", "1"); ("b", "2")])); reflexivity.
Defined.

(* ================================================================== *)
(** ** The write to the address bar with the conversion of [set] *)
(* ================================================================== *)

Lemma fold_indexed_map {A : Type} (U : string -> string)
      (f g : A -> nat * string -> A) (l : list string) (start : nat) (a : A) :
  (forall x i u, f x (i, u) = g x (i, U u)) ->
  fold_left f (combine (seq start (List.length l)) l) a =
  fold_left g (combine (seq start (List.length (map U l))) (map U l)) a.
Proof.
  intros H. revert start a.
  induction l as [|u l IH]; intros start a; simpl; [reflexivity|].
  rewrite H. apply IH.
Qed.

Section Conversion.
Variable USVString : string -> string.
Hypothesis keys_fixed : keys_converted_unchanged USVString.

Lemma sync_step_written_fixed (notes : list string) (p : URLSearchParams)
      (i : nat) (u : string) :
  USVString u = u ->
  (forall n, nth_error notes i = Some n -> USVString n = n) ->
  sync_step_written USVString notes p (i, u) = sync_step notes p (i, u).
Proof.
  intros Hu Hn. unfold sync_step_written, sync_step, Js.usp_set_converted.
  destruct (keys_fixed (i + 1)) as [Ku Kn]. rewrite Ku, Kn, Hu.
  destruct (nth_error notes i) as [n|]; [|reflexivity].
  now rewrite (Hn n eq_refl).
Qed.

(** On strings that the conversion leaves as they are, the write is
    [syncQuery]. *)
Lemma syncQuery_written_fixed (urls notes : list string) :
  (forall u, In u urls -> USVString u = u) ->
  (forall n, In n notes -> USVString n = n) ->
  syncQuery_written USVString urls notes = syncQuery urls notes.
Proof.
  intros Hu Hn. unfold syncQuery_written, syncQuery.
  apply fold_left_ext_in. intros p [i u] Hin.
  apply sync_step_written_fixed.
  - apply Hu. now apply in_combine_r in Hin.
  - intros n E. apply Hn. now apply nth_error_In in E.
Qed.

Lemma encode_written_well_formed (slots : list UrlSlot) :
  well_formed_slots USVString slots ->
  encode_written USVString slots = encode slots.
Proof.
  intros H. unfold encode_written, encode. apply syncQuery_written_fixed.
  - intros u Hu. apply in_map_iff in Hu. destruct Hu as [s [<- Hs]]. now apply H.
  - intros n Hn. apply in_map_iff in Hn. destruct Hn as [s [<- Hs]]. now apply H.
Qed.

Hypothesis keeps_empty : conversion_keeps_empty USVString.

Lemma truthy_converted (v : option string) :
  Js.truthy (option_map USVString v) = Js.truthy v.
Proof.
  destruct keeps_empty as [He Hne].
  destruct v as [[|c s]|]; simpl; [now rewrite He | | reflexivity].
  destruct (USVString (String c s)) eqn:E; [|reflexivity].
  now apply Hne in E.
Qed.

Lemma sync_step_written_map (notes : list string) (p : URLSearchParams)
      (i : nat) (u : string) :
  sync_step_written USVString notes p (i, u) =
  sync_step (map USVString notes) p (i, USVString u).
Proof.
  unfold sync_step_written, sync_step, Js.usp_set_converted.
  destruct (keys_fixed (i + 1)) as [Ku Kn]. rewrite Ku, Kn.
  rewrite nth_error_map.
  rewrite (truthy_converted (nth_error notes i)).
  change (Js.truthy (Some (USVString u)))
    with (Js.truthy (option_map USVString (Some u))).
  rewrite (truthy_converted (Some u)).
  destruct (nth_error notes i); reflexivity.
Qed.

(** The write for any strings is [syncQuery] on the converted strings. *)
Lemma syncQuery_written_map (urls notes : list string) :
  syncQuery_written USVString urls notes =
  syncQuery (map USVString urls) (map USVString notes).
Proof.
  unfold syncQuery_written, syncQuery. apply fold_indexed_map.
  intros p i u. apply sync_step_written_map.
Qed.

Lemma converted_nonEmpty (u : string) :
  nonEmpty (USVString u) = nonEmpty u.
Proof. exact (truthy_converted (Some u)). Qed.

(** X12.  For a state of any size and any strings, the address bar carries
    under [url{i+1}] the conversion of the url of row [i] when that url is
    non-empty, and nothing under that name otherwise; and under
    [note{i+1}] the conversion of the note of a row [i] that exists, when
    the note is non-empty.  For a string without unpaired surrogate the
    conversion is the string itself. *)
Theorem syncQuery_written_lookup (urls notes : list string) (i : nat) :
  Js.usp_get (syncQuery_written USVString urls notes) (url_key i) =
    match nth_error urls i with
    | Some (String c s) => Some (USVString (String c s))
    | _ => None
    end /\
  Js.usp_get (syncQuery_written USVString urls notes) (note_key i) =
    match nth_error urls i, nth_error notes i with
    | Some _, Some (String c n) => Some (USVString (String c n))
    | _, _ => None
    end.
Proof.
  rewrite syncQuery_written_map.
  destruct (syncQuery_lookup (map USVString urls) (map USVString notes) i) as [Eu En].
  rewrite Eu, En, !nth_error_map.
  assert (K : forall x : string,
            match USVString x with
            | String c s => Some (String c s)
            | EmptyString => None
            end =
            match x with
            | String c s => Some (USVString (String c s))
            | EmptyString => None
            end).
  { intros x. pose proof (converted_nonEmpty x) as E. unfold nonEmpty in E.
    destruct x as [|c s]; simpl in E; destruct (USVString _) eqn:E';
      simpl in E; try discriminate; reflexivity. }
  split.
  - destruct (nth_error urls i) as [x|]; simpl; [apply K | reflexivity].
  - destruct (nth_error urls i) as [x|]; simpl; [|reflexivity].
    destruct (nth_error notes i) as [y|]; simpl; [apply K | reflexivity].
Qed.

(** X13.  Whatever the state, every parameter written to the address bar
    belongs to an existing row [i] and has a non-empty value: it is the
    conversion of the non-empty url of that row under [url{i+1}], or the
    conversion of its non-empty note under [note{i+1}]. *)
Theorem syncQuery_written_entries (urls notes : list string) (e : string * string) :
  In e (syncQuery_written USVString urls notes) ->
  nonEmpty (snd e) = true /\
  exists i, i < List.length urls /\
    ((fst e = url_key i /\
      exists u, nth_error urls i = Some u /\ nonEmpty u = true /\
                snd e = USVString u) \/
     (fst e = note_key i /\
      exists n, nth_error notes i = Some n /\ nonEmpty n = true /\
                snd e = USVString n)).
Proof.
  rewrite syncQuery_written_map. intros H.
  apply syncQuery_entries in H. destruct H as [Hne [i [Hi H]]].
  split; [exact Hne|]. exists i. rewrite length_map in Hi. split; [exact Hi|].
  rewrite !nth_error_map in H.
  destruct H as [[Hk Hv]|[Hk Hv]]; [left|right]; (split; [exact Hk|]).
  - destruct (nth_error urls i) as [u|]; [|discriminate].
    injection Hv as Hv. exists u. rewrite <- Hv in Hne.
    rewrite converted_nonEmpty in Hne. auto.
  - destruct (nth_error notes i) as [n|]; [|discriminate].
    injection Hv as Hv. exists n. rewrite <- Hv in Hne.
    rewrite converted_nonEmpty in Hne. auto.
Qed.
End Conversion.

(** *** The reference conversion *)

Lemma refUSVString_other (c : ascii) (t : string) :
  N_of_ascii c <> 237%N ->
  refUSVString (String c t) = String c (refUSVString t).
Proof.
  intros H. apply N.eqb_neq in H.
  destruct t as [|c2 [|c3 rest]]; try reflexivity.
  cbn [refUSVString]. now rewrite H.
Qed.

Lemma refUSVString_ascii_prefix (c : ascii) (t : string) :
  (N_of_ascii c <? 128)%N = true ->
  refUSVString t = t -> refUSVString (String c t) = String c t.
Proof.
  intros H E. rewrite refUSVString_other, E; [reflexivity|].
  apply N.ltb_lt in H. lia.
Qed.

Lemma refUSVString_decimal (d : Decimal.uint) :
  refUSVString (NilEmpty.string_of_uint d) = NilEmpty.string_of_uint d.
Proof.
  induction d; simpl; [reflexivity| ..];
    apply refUSVString_ascii_prefix; (reflexivity || assumption).
Qed.

Lemma refUSVString_keys : keys_converted_unchanged refUSVString.
Proof.
  intros n. unfold Js.Number_toString.
  pose proof (refUSVString_decimal (Nat.to_uint n)) as E.
  split; cbn [String.append];
    repeat (apply refUSVString_ascii_prefix; [reflexivity|]); exact E.
Qed.

Lemma refUSVString_keeps_empty : conversion_keeps_empty refUSVString.
Proof.
  split; [reflexivity|]. intros c s.
  destruct s as [|c2 [|c3 rest]]; try discriminate.
  cbn [refUSVString]. destruct (_ && _); discriminate.
Qed.

Lemma syncQuery_written_lookup_witness :
  keys_converted_unchanged refUSVString /\
  conversion_keeps_empty refUSVString /\
  Js.usp_get (syncQuery_written refUSVString [lone_surrogate; "b"] ["n"; ""])
             (url_key 0)
  = Some (refUSVString lone_surrogate).
Proof.
  split; [exact refUSVString_keys|]. split; [exact refUSVString_keeps_empty|].
  exact (proj1 (syncQuery_written_lookup refUSVString refUSVString_keys
                  refUSVString_keeps_empty [lone_surrogate; "b"] ["n"; ""] 0)).
Defined.

Lemma syncQuery_written_entries_witness :
  keys_converted_unchanged refUSVString /\
  conversion_keeps_empty refUSVString /\
  In ("note2", "n")
     (syncQuery_written refUSVString ["https://example.com"; ""] ["home"; "n"]) /\
  nonEmpty "n" = true /\
  exists i, i < 2 /\
    (("note2" = url_key i /\
      exists u, nth_error ["https://example.com"; ""] i = Some u /\
                nonEmpty u = true /\ "n" = refUSVString u) \/
     ("note2" = note_key i /\
      exists n, nth_error ["home"; "n"] i = Some n /\
                nonEmpty n = true /\ "n" = refUSVString n)).
Proof.
  assert (H : In ("note2", "n")
                 (syncQuery_written refUSVString ["https://example.com"; ""]
                                    ["home"; "n"]))
    by (vm_compute; tauto).
  split; [exact refUSVString_keys|]. split; [exact refUSVString_keeps_empty|].
  split; [exact H|].
  exact (syncQuery_written_entries refUSVString refUSVString_keys
           refUSVString_keeps_empty ["https://example.com"; ""] ["home"; "n"]
           ("note2", "n") H).
Defined.

(* ================================================================== *)
(** ** The round trip of the state codec *)
(* ================================================================== *)

Lemma nonEmpty_false (s : string) : nonEmpty s = false -> s = "".
Proof. destruct s; [reflexivity | discriminate]. Qed.

(** A slot list is given by its urls and its notes. *)
Lemma rows_of_slots (slots : list UrlSlot) :
  rows (map url slots) (map note slots) = slots.
Proof.
  apply nth_error_ext. intros i.
  rewrite rows_nth_error, nth_error_map, nth_nth_error, nth_error_map.
  destruct (nth_error slots i) as [[u n]|]; reflexivity.
Qed.

Lemma url_values_bearing (slots : list UrlSlot) :
  url_values slots = map url (url_bearing slots).
Proof.
  unfold url_values, url_bearing, has_url.
  induction slots as [|s slots IH]; simpl; [reflexivity|].
  destruct (nonEmpty (url s)); simpl; now rewrite IH.
Qed.

Lemma empty_notes_bearing (slots : list UrlSlot) :
  (forall t, In t slots -> nonEmpty (note t) = false) ->
  note_values slots = [] /\
  map note (url_bearing slots) = repeat "" (List.length (url_bearing slots)).
Proof.
  induction slots as [|s slots IH]; intros H; [now split|].
  destruct (IH (fun t Ht => H t (or_intror Ht))) as [IH1 IH2].
  pose proof (H s (or_introl eq_refl)) as Hs.
  change (note_values (s :: slots))
    with (if nonEmpty (note s) then note s :: note_values slots else note_values slots).
  change (url_bearing (s :: slots))
    with (if nonEmpty (url s) then s :: url_bearing slots else url_bearing slots).
  rewrite Hs. split; [exact IH1|].
  destruct (nonEmpty (url s)); [|exact IH2].
  simpl. now rewrite IH2, (nonEmpty_false _ Hs).
Qed.

Lemma url_bearing_cons (s : UrlSlot) (slots : list UrlSlot) :
  url_bearing (s :: slots) =
  if nonEmpty (url s) then s :: url_bearing slots else url_bearing slots.
Proof. reflexivity. Qed.

Lemma note_values_cons (s : UrlSlot) (slots : list UrlSlot) :
  note_values (s :: slots) =
  if nonEmpty (note s) then note s :: note_values slots else note_values slots.
Proof. reflexivity. Qed.

(** When every note has a url and the noted slots come first, the notes
    of the url-bearing slots are the non-empty notes followed by empty
    ones. *)
Lemma bearing_notes (slots : list UrlSlot) :
  notes_have_urls slots -> noted_slots_first slots ->
  exists k, map note (url_bearing slots) = note_values slots ++ repeat "" k.
Proof.
  induction slots as [|s slots IH]; intros Ha Hb.
  - exists 0. reflexivity.
  - assert (Ha' : notes_have_urls slots) by (intros t Ht; apply Ha; now right).
    assert (Hb' : noted_slots_first slots).
    { intros l1 t l2 E. apply (Hb (s :: l1) t l2). now rewrite E. }
    rewrite url_bearing_cons, note_values_cons.
    destruct (nonEmpty (url s)) eqn:Hu.
    + destruct (nonEmpty (note s)) eqn:Hn.
      * destruct (IH Ha' Hb') as [k E]. exists k. simpl. now rewrite E.
      * destruct (empty_notes_bearing slots (Hb [] s slots eq_refl Hu Hn)) as [E1 E2].
        exists (S (List.length (url_bearing slots))).
        simpl. rewrite E1, E2, (nonEmpty_false _ Hn). reflexivity.
    + destruct (nonEmpty (note s)) eqn:Hn.
      * rewrite (Ha s (or_introl eq_refl) Hn) in Hu. discriminate.
      * apply (IH Ha' Hb').
Qed.

Lemma syncNotes_pad (prev : list string) (k : nat) :
  syncNotes prev (List.length prev + k) = prev ++ repeat "" k.
Proof.
  unfold syncNotes. destruct k as [|k].
  - rewrite Nat.add_0_r, Nat.eqb_refl. simpl. now rewrite app_nil_r.
  - assert (E : (List.length prev =? List.length prev + S k)%nat = false)
      by (apply Nat.eqb_neq; lia).
    assert (L : (List.length prev <? List.length prev + S k)%nat = true)
      by (apply Nat.ltb_lt; lia).
    rewrite E, L. f_equal. f_equal. lia.
Qed.

(** What [decode] makes of the urls and notes written by [encode] for a
    slot list with every note on a url and the noted slots first. *)
Lemma rows_of_bearing (slots : list UrlSlot) :
  notes_have_urls slots -> noted_slots_first slots ->
  rows (url_values slots)
       (syncNotes (note_values slots) (List.length (url_values slots)))
  = url_bearing slots.
Proof.
  intros Ha Hb. destruct (bearing_notes slots Ha Hb) as [k E].
  rewrite url_values_bearing, length_map.
  assert (L : List.length (url_bearing slots) = List.length (note_values slots) + k).
  { rewrite <- (length_map note), E, length_app, repeat_length. reflexivity. }
  rewrite L, syncNotes_pad, <- E. apply rows_of_slots.
Qed.

Lemma decode_encode_expected (slots : list UrlSlot) :
  List.length slots <= 3 ->
  notes_have_urls slots -> noted_slots_first slots ->
  decode (encode slots) = expected_slots slots.
Proof.
  intros Hlen Ha Hb. unfold decode, expected_slots.
  rewrite encode_getInitialUrls, encode_getInitialNotes by exact Hlen.
  pose proof (rows_of_bearing slots Ha Hb) as R.
  pose proof (url_values_bearing slots) as U.
  destruct (url_bearing slots) as [|b bs] eqn:B.
  - simpl in U. rewrite U.
    assert (N : note_values slots = []).
    { unfold note_values. destruct (filter nonEmpty (map note slots)) as [|n ns] eqn:F;
        [reflexivity|].
      assert (Hin : In n (filter nonEmpty (map note slots))) by (rewrite F; now left).
      apply filter_In in Hin. destruct Hin as [Hin Hne].
      apply in_map_iff in Hin. destruct Hin as [s [<- Hs]].
      assert (Hb' : In s (url_bearing slots)).
      { apply filter_In. split; [exact Hs | exact (Ha s Hs Hne)]. }
      rewrite B in Hb'. destruct Hb'. }
    rewrite N. reflexivity.
  - rewrite U in *. simpl map in *. exact R.
Qed.

(** C1, amended.  For one to three slots whose strings have no unpaired
    surrogate, decoding what was encoded gives, as urls and in this order,
    exactly the non-empty urls of the slots (the single empty url when
    there is none), hence as many url-bearing slots; and when every
    non-empty note is in a slot with a url and no url-bearing slot with an
    empty note stands before a slot with a note, it gives back exactly the
    url-bearing slots, each url with its own note, in their order. *)
Theorem decode_encode_roundtrip (USVString : string -> string)
        (slots : list UrlSlot) :
  keys_converted_unchanged USVString ->
  well_formed_slots USVString slots ->
  1 <= List.length slots <= 3 ->
  map url (decode (encode_written USVString slots)) =
    match url_values slots with
    | [] => [""]
    | _ :: _ => url_values slots
    end /\
  List.length (url_values (decode (encode_written USVString slots)))
  = List.length (url_values slots) /\
  (notes_have_urls slots -> noted_slots_first slots ->
   decode (encode_written USVString slots) = expected_slots slots).
Proof.
  intros Hk Hwf [_ Hlen].
  rewrite (encode_written_well_formed USVString Hk slots Hwf).
  assert (Hu : map url (decode (encode slots)) =
               match url_values slots with
               | [] => [""]
               | _ :: _ => url_values slots
               end).
  { rewrite decode_urls. now apply encode_getInitialUrls. }
  split; [exact Hu|]. split.
  - unfold url_values at 1. rewrite Hu.
    destruct (url_values slots) as [|u us] eqn:E; [reflexivity|].
    rewrite <- E. unfold url_values. now rewrite filter_nonEmpty_idem.
  - intros Ha Hb. now apply decode_encode_expected.
Qed.

Lemma decode_encode_roundtrip_witness :
  keys_converted_unchanged refUSVString /\
  well_formed_slots refUSVString
    [{| url := "https://example.com"; note := "home" |}; {| url := ""; note := "" |}] /\
  1 <= List.length [{| url := "https://example.com"; note := "home" |};
                    {| url := ""; note := "" |}] <= 3 /\
  notes_have_urls
    [{| url := "https://example.com"; note := "home" |}; {| url := ""; note := "" |}] /\
  noted_slots_first
    [{| url := "https://example.com"; note := "home" |}; {| url := ""; note := "" |}] /\
  decode (encode_written refUSVString
            [{| url := "https://example.com"; note := "home" |};
             {| url := ""; note := "" |}])
  = [{| url := "https://example.com"; note := "home" |}].
Proof.
  assert (Hwf : well_formed_slots refUSVString
                  [{| url := "https://example.com"; note := "home" |};
                   {| url := ""; note := "" |}]).
  { intros s [<-|[<-|[]]]; split; reflexivity. }
  assert (Hlen : 1 <= List.length [{| url := "https://example.com"; note := "home" |};
                                   {| url := ""; note := "" |}] <= 3)
    by (simpl; lia).
  assert (Ha : notes_have_urls
                 [{| url := "https://example.com"; note := "home" |};
                  {| url := ""; note := "" |}]).
  { intros s [<-|[<-|[]]]; simpl; intros H; (reflexivity || discriminate). }
  assert (Hb : noted_slots_first
                 [{| url := "https://example.com"; note := "home" |};
                  {| url := ""; note := "" |}]).
  { intros l1 s l2 E Hu Hn.
    destruct l1 as [|x [|y [|z l1]]]; simpl in E; inversion E; subst;
      simpl in Hu, Hn; discriminate. }
  split; [exact refUSVString_keys|]. split; [exact Hwf|]. split; [exact Hlen|].
  split; [exact Ha|]. split; [exact Hb|].
  exact (proj2 (proj2 (decode_encode_roundtrip refUSVString _ refUSVString_keys
                         Hwf Hlen)) Ha Hb).
Defined.

(** C1 as stated fails, in three ways.  A note kept in a slot with an empty
    url, beyond the slots that [decode] produces, does not come back.  A
    note that comes back need not be in its slot: after a url-bearing slot
    with an empty note it moves up.  And a url with an unpaired surrogate is
    written as another string. *)
Lemma decode_encode_not_preserving :
  (1 <= List.length [{| url := "https://a.example"; note := "first" |};
                     {| url := ""; note := "second" |}] <= 3 /\
   decode (encode_written refUSVString
             [{| url := "https://a.example"; note := "first" |};
              {| url := ""; note := "second" |}])
   = [{| url := "https://a.example"; note := "first" |}] /\
   note_values (decode (encode_written refUSVString
                          [{| url := "https://a.example"; note := "first" |};
                           {| url := ""; note := "second" |}]))
   <> note_values [{| url := "https://a.example"; note := "first" |};
                   {| url := ""; note := "second" |}]) /\
  (notes_have_urls [{| url := "a"; note := "" |}; {| url := "b"; note := "n" |}] /\
   decode (encode_written refUSVString
             [{| url := "a"; note := "" |}; {| url := "b"; note := "n" |}])
   = [{| url := "a"; note := "n" |}; {| url := "b"; note := "" |}]) /\
  (map url (decode (encode_written refUSVString
                      [{| url := lone_surrogate; note := "" |}]))
   = [refUSVString lone_surrogate] /\
   refUSVString lone_surrogate <> lone_surrogate).
Proof.
  split; [|split].
  - split; [simpl; lia|]. split; [reflexivity|]. discriminate.
  - split; [|reflexivity].
    intros s [<-|[<-|[]]]; simpl; intros H; (reflexivity || discriminate).
  - split; [reflexivity | discriminate].
Qed.
